(* Verification of the session matchmaker sketched in the site's case study:
   the SessionManager class (src/pages/index.js, lines 264-309) and the
   session clean-up timer (docs/streaming/pixel-streaming-optimization.md,
   lines 157-172).

   Strings are JavaScript strings whose code units are below 256, Numbers
   that hold integers are Z, NaN is None.  Redis is a finite map from keys
   to typed entries; every Redis command is one atomic step. *)

From Stdlib Require Import ZArith String Ascii Decimal DecimalString DecimalPos.
From stdpp Require Import gmap strings list.

Local Open Scope string_scope.
Local Open Scope Z_scope.

(* ------------------------------------------------------------------ *)
(* JavaScript values used by the code                                  *)
(* ------------------------------------------------------------------ *)
Module JS.

Inductive error :=
| TypeError (message : string)
| ReplyError (message : string)      (* an error reply of the Redis server *)
| Rejection (name : string).         (* any other thrown error, by its name *)

Inductive outcome (A : Type) :=
| Ok (a : A)
| Err (e : error).
Arguments Ok {A} a.
Arguments Err {A} e.

Definition code (c : ascii) : Z := Z.of_N (N_of_ascii c).

(* StrWhiteSpaceChar, restricted to code units below 256:
   TAB, LF, VT, FF, CR, SP and NBSP. *)
Definition isStrWhiteSpaceChar (c : ascii) : bool :=
  let n := code c in
  ((9 <=? n) && (n <=? 13)) || (n =? 32) || (n =? 160).

Fixpoint trimStart (s : string) : string :=
  match s with
  | String c rest => if isStrWhiteSpaceChar c then trimStart rest else s
  | EmptyString => EmptyString
  end.

(* the value of a character read as a digit, in the largest radix (36) *)
Definition digitValue (c : ascii) : option Z :=
  let n := code c in
  if (48 <=? n) && (n <=? 57) then Some (n - 48)
  else if (97 <=? n) && (n <=? 122) then Some (n - 87)
  else if (65 <=? n) && (n <=? 90) then Some (n - 55)
  else None.

Definition radixDigit (R : Z) (c : ascii) : option Z :=
  match digitValue c with
  | Some d => if d <? R then Some d else None
  | None => None
  end.

(* the integer written by the longest prefix of radix-R digits of s;
   acc is None as long as no digit has been read *)
Fixpoint digitsPrefix (R : Z) (s : string) (acc : option Z) : option Z :=
  match s with
  | String c rest =>
      match radixDigit R c with
      | Some d => digitsPrefix R rest (Some (default 0 acc * R + d))
      | None => acc
      end
  | EmptyString => acc
  end.

(* parseInt(string) with no radix argument, on a string *)
Definition parseIntString (inputString : string) : option Z :=
  let trimmed := trimStart inputString in
  let sign := match trimmed with String "-"%char _ => -1 | _ => 1 end in
  let unsigned := match trimmed with
                  | String "+"%char rest | String "-"%char rest => rest
                  | _ => trimmed
                  end in
  let '(R, body) := match unsigned with
                    | String "0"%char (String "x"%char rest)
                    | String "0"%char (String "X"%char rest) => (16, rest)
                    | _ => (10, unsigned)
                    end in
  match digitsPrefix R body None with
  | Some mathInt => Some (sign * mathInt)
  | None => None
  end.

(* ToString of what redis.get resolves to: a string or null *)
Definition ToString (v : option string) : string :=
  match v with
  | Some s => s
  | None => "null"
  end.

Definition parseInt (v : option string) : option Z := parseIntString (ToString v).

(* x < y on Numbers, y an integer: false when x is NaN *)
Definition lessThan (x : option Z) (y : Z) : bool :=
  match x with
  | Some n => n <? y
  | None => false
  end.

(* Number to string, for integers of magnitude below 10^21 *)
Definition NumberToString (n : Z) : string := NilZero.string_of_int (Z.to_int n).

Definition dquote : ascii := ascii_of_nat 34.
Definition backslash : ascii := ascii_of_nat 92.

Definition hexDigit (d : Z) : ascii :=
  ascii_of_N (Z.to_N (if d <? 10 then 48 + d else 87 + d)).

(* QuoteJSONString, one code unit *)
Definition quoteJSONChar (c : ascii) : string :=
  let n := code c in
  if n =? 34 then String backslash (String dquote EmptyString)
  else if n =? 92 then String backslash (String backslash EmptyString)
  else if n =? 8 then String backslash "b"%string
  else if n =? 9 then String backslash "t"
  else if n =? 10 then String backslash "n"
  else if n =? 12 then String backslash "f"
  else if n =? 13 then String backslash "r"
  else if n <? 32 then
    String backslash
      (String "u"%char (String "0"%char (String "0"%char
         (String (hexDigit (n / 16)) (String (hexDigit (n mod 16)) EmptyString)))))
  else String c EmptyString.

Fixpoint quoteJSONChars (s : string) : string :=
  match s with
  | String c rest => quoteJSONChar c +:+ quoteJSONChars rest
  | EmptyString => EmptyString
  end.

Definition quoteJSONString (s : string) : string :=
  String dquote (quoteJSONChars s) +:+ String dquote EmptyString.

End JS.
Export JS.

(* ------------------------------------------------------------------ *)
(* The Redis key space, with the three commands the code issues        *)
(* ------------------------------------------------------------------ *)
Module Redis.

Inductive rvalue :=
| RString (s : string)
| RSet (members : list string)   (* in the order SMEMBERS returns them *)
| ROther.                        (* a list, hash, sorted set or stream *)

(* ttl: the expire time in seconds the key was given, if any *)
Record entry := { value : rvalue; ttl : option Z }.

Abbreviation db := (gmap string entry).

Definition WRONGTYPE : error :=
  ReplyError "WRONGTYPE Operation against a key holding the wrong kind of value".

Definition smembers (key : string) (st : db) : outcome (list string) :=
  match value <$> st !! key with
  | None => Ok []
  | Some (RSet members) => Ok members
  | Some _ => Err WRONGTYPE
  end.

Definition get (key : string) (st : db) : outcome (option string) :=
  match value <$> st !! key with
  | None => Ok None
  | Some (RString s) => Ok (Some s)
  | Some _ => Err WRONGTYPE
  end.

(* SETEX replaces whatever the key held, of any type *)
Definition setex (key : string) (seconds : Z) (v : string) (st : db) : outcome unit * db :=
  if seconds <=? 0
  then (Err (ReplyError "ERR invalid expire time in 'setex' command"), st)
  else (Ok tt, <[key := {| value := RString v; ttl := Some seconds |}]> st).

End Redis.

(* ------------------------------------------------------------------ *)
(* class SessionManager (src/pages/index.js)                           *)
(* ------------------------------------------------------------------ *)
Module SessionManager.

Record server := { id : string; load : option Z }.

Record session := {
  userId : string;
  serverId : string;
  subdomain : string;
  startTime : Z;
  maxDuration : Z
}.

(* An async method, as the tree of the calls it awaits.  Every node but
   Return and Throw is an await: the point where other pending calls may
   run.  CreateNewServer is the call of this.createNewServer(), which
   the class does not define: the environment decides how it ends, and
   what a collaborator behind it would write to Redis is no part of
   assignSession. *)
Inductive prog (A : Type) : Type :=
| Return (a : A)
| Throw (e : error)
| Smembers (key : string) (k : list string -> prog A)
| Get (key : string) (k : option string -> prog A)
| Setex (key : string) (seconds : Z) (v : string) (k : prog A)
| CreateNewServer (k : server -> prog A).
Arguments Return {A} a.
Arguments Throw {A} e.
Arguments Smembers {A} key k.
Arguments Get {A} key k.
Arguments Setex {A} key seconds v k.
Arguments CreateNewServer {A} k.

Fixpoint bind {A B : Type} (p : prog A) (f : A -> prog B) : prog B :=
  match p with
  | Return a => f a
  | Throw e => Throw e
  | Smembers key k => Smembers key (fun members => bind (k members) f)
  | Get key k => Get key (fun v => bind (k v) f)
  | Setex key seconds v k => Setex key seconds v (bind k f)
  | CreateNewServer k => CreateNewServer (fun srv => bind (k srv) f)
  end.

Definition serversKey : string := "cirrus:servers".
Definition loadKey (serverId : string) : string := "cirrus:" +:+ serverId +:+ ":load".
Definition sessionKey (userId : string) : string := "session:" +:+ userId.

(* the for-of loop of findAvailableServer *)
Fixpoint scanServers (servers : list string) : prog (option server) :=
  match servers with
  | [] => Return None
  | serverId :: rest =>
      Get (loadKey serverId) (fun load =>
        if lessThan (parseInt load) 4
        then Return (Some {| id := serverId; load := parseInt load |})
        else scanServers rest)
  end.

Definition findAvailableServer : prog (option server) :=
  Smembers serversKey scanServers.

Definition member (name : string) (v : string) : string :=
  quoteJSONString name +:+ ":" +:+ v.

Definition JSON_stringify (s : session) : string :=
  "{" +:+ member "userId" (quoteJSONString (userId s))
  +:+ "," +:+ member "serverId" (quoteJSONString (serverId s))
  +:+ "," +:+ member "subdomain" (quoteJSONString (subdomain s))
  +:+ "," +:+ member "startTime" (NumberToString (startTime s))
  +:+ "," +:+ member "maxDuration" (NumberToString (maxDuration s))
  +:+ "}".

(* userId is a string; now1 and now2 are the values of the two Date.now()
   calls, in the order the object literal evaluates them.  server is a const: the
   assignment in the fallback branch throws once its right-hand side
   has been awaited. *)
Definition assignSession (now1 now2 : Z) (userId : string) : prog session :=
  bind findAvailableServer (fun server =>
    match server with
    | None =>
        CreateNewServer (fun _ =>
          Throw (TypeError "Assignment to constant variable."))
    | Some server =>
        let session := {|
          userId := userId;
          serverId := id server;
          subdomain := "session-" +:+ NumberToString now1 +:+ ".ps.domain.com";
          startTime := now2;
          maxDuration := 30 * 60 * 1000
        |} in
        Setex (sessionKey userId) 1800 (JSON_stringify session) (Return session)
    end).

(* One call run to its end with nothing else running in between;
   provisioning is how this.createNewServer() ends, if it is called. *)
Fixpoint exec {A : Type} (provisioning : outcome server) (p : prog A) (st : Redis.db)
  : outcome A * Redis.db :=
  match p with
  | Return a => (Ok a, st)
  | Throw e => (Err e, st)
  | Smembers key k =>
      match Redis.smembers key st with
      | Ok members => exec provisioning (k members) st
      | Err e => (Err e, st)
      end
  | Get key k =>
      match Redis.get key st with
      | Ok v => exec provisioning (k v) st
      | Err e => (Err e, st)
      end
  | Setex key seconds v k =>
      match Redis.setex key seconds v st with
      | (Ok _, st') => exec provisioning k st'
      | (Err e, st') => (Err e, st')
      end
  | CreateNewServer k =>
      match provisioning with
      | Ok srv => exec provisioning (k srv) st
      | Err e => (Err e, st)
      end
  end.

(* One await of one pending call *)
Inductive step {A : Type} : prog A -> Redis.db -> prog A -> Redis.db -> Prop :=
| step_smembers key k st members :
    Redis.smembers key st = Ok members -> step (Smembers key k) st (k members) st
| step_smembers_err key k st e :
    Redis.smembers key st = Err e -> step (Smembers key k) st (Throw e) st
| step_get key k st v :
    Redis.get key st = Ok v -> step (Get key k) st (k v) st
| step_get_err key k st e :
    Redis.get key st = Err e -> step (Get key k) st (Throw e) st
| step_setex key seconds v k st st' :
    Redis.setex key seconds v st = (Ok tt, st') -> step (Setex key seconds v k) st k st'
| step_setex_err key seconds v k st st' e :
    Redis.setex key seconds v st = (Err e, st') -> step (Setex key seconds v k) st (Throw e) st'
| step_provisioned k st srv :
    step (CreateNewServer k) st (k srv) st
| step_not_provisioned k st e :
    step (CreateNewServer k) st (Throw e) st.

(* The pending assignSession calls and the key space they share: a new
   call may arrive at any time, and any pending call may do its next
   await.  Any order of the awaits is allowed, which is at least what
   one or more Node processes can do.  The steps are those of
   SessionManager alone: the expiry of a key by the Redis server and the
   writes of other clients are none of them. *)
Inductive run : list (prog session) * Redis.db -> list (prog session) * Redis.db -> Prop :=
| run_call now1 now2 userId calls st :
    run (calls, st) ((calls ++ [assignSession now1 now2 userId])%list, st)
| run_await (i : nat) p p' calls st st' :
    calls !! i = Some p -> step p st p' st' ->
    run (calls, st) (<[i := p']> calls, st').

Definition runs := rtc run.

(* every SETEX a call may still issue is on a key in P *)
Inductive writesOnly {A : Type} (P : string -> Prop) : prog A -> Prop :=
| wo_return a : writesOnly P (Return a)
| wo_throw e : writesOnly P (Throw e)
| wo_smembers key k : (forall members, writesOnly P (k members)) -> writesOnly P (Smembers key k)
| wo_get key k : (forall v, writesOnly P (k v)) -> writesOnly P (Get key k)
| wo_setex key seconds v k : P key -> writesOnly P k -> writesOnly P (Setex key seconds v k)
| wo_create k : (forall srv, writesOnly P (k srv)) -> writesOnly P (CreateNewServer k).

Definition isSessionKey (key : string) : Prop := exists userId, key = sessionKey userId.

(* What the test of the loop reads for one server *)
Definition spare (st : Redis.db) (serverId : string) : bool :=
  match Redis.get (loadKey serverId) st with
  | Ok v => lessThan (parseInt v) 4
  | Err _ => false
  end.

(* the load was read and the test failed: 4 or more, or not a number *)
Definition full (st : Redis.db) (serverId : string) : bool :=
  match Redis.get (loadKey serverId) st with
  | Ok v => negb (lessThan (parseInt v) 4)
  | Err _ => false
  end.

(* the counter of a server as the code reads it *)
Definition loadOf (st : Redis.db) (serverId : string) : option Z :=
  match Redis.get (loadKey serverId) st with
  | Ok v => parseInt v
  | Err _ => None
  end.

Definition loadInBounds (st : Redis.db) (serverId : string) : Prop :=
  exists n, loadOf st serverId = Some n /\ 0 <= n <= 4.

(* the record assignSession stores for a session *)
Definition record (s : session) : Redis.entry :=
  {| Redis.value := Redis.RString (JSON_stringify s); Redis.ttl := Some 1800 |}.

End SessionManager.

(* ------------------------------------------------------------------ *)
(* The clean-up timer (docs/streaming/pixel-streaming-optimization.md) *)
(* ------------------------------------------------------------------ *)
Module Cleanup.

Record session := {
  userId : string;
  cirrusServer : string;
  ueInstance : string;
  startTime : Z;
  maxDuration : Z
}.

(* closeSession and releaseResources are defined nowhere in the
   repository: a call of either is an observable event. *)
Inductive call :=
| closeSession (s : session)
| releaseResources (s : session).

(* a pending setTimeout: its callback closes over session *)
Record timer := { due : Z; target : session }.

Record loop := {
  now : Z;                      (* the clock, in milliseconds *)
  timers : list timer;
  log : list (Z * call)         (* the calls made so far, each with its time *)
}.

(* the session literal, Date.now() being t *)
Definition newSession (t : Z) : session := {|
  userId := "user123";
  cirrusServer := "session-1.ps.domain.com";
  ueInstance := "container-abc";
  startTime := t;
  maxDuration := 30 * 60 * 1000
|}.

(* a delay outside 1 .. 2^31-1 is taken as 1 *)
Definition delayOf (delay : Z) : Z :=
  if (1 <=? delay) && (delay <=? 2147483647) then delay else 1.

Definition setTimeout (s : session) (delay : Z) (l : loop) : loop :=
  {| now := now l;
     timers := (timers l ++ [{| due := now l + delayOf delay; target := s |}])%list;
     log := log l |}.

(* The snippet: the literal is evaluated at t0, setTimeout is called at t1 *)
Definition script (t0 t1 : Z) : loop :=
  let session := newSession t0 in
  setTimeout session (maxDuration session) {| now := t1; timers := []; log := [] |}.

(* the callback: closeSession(session); releaseResources(session); *)
Definition callback (t : Z) (s : session) : list (Z * call) :=
  [(t, closeSession s); (t, releaseResources s)].

(* the callback when closeSession(session) throws: the second statement
   is not reached *)
Definition callbackThrows (t : Z) (s : session) : list (Z * call) :=
  [(t, closeSession s)].

Definition isDue (l : loop) (tm : timer) : bool := due tm <=? now l.

Inductive step : loop -> loop -> Prop :=
| tick l t :
    now l <= t ->
    step l {| now := t; timers := timers l; log := log l |}
| fire l tm before after :
    timers l = (before ++ tm :: after)%list -> isDue l tm = true ->
    step l {| now := now l; timers := (before ++ after)%list;
              log := (log l ++ callback (now l) (target tm))%list |}
| fire_throws l tm before after :
    timers l = (before ++ tm :: after)%list -> isDue l tm = true ->
    step l {| now := now l; timers := (before ++ after)%list;
              log := (log l ++ callbackThrows (now l) (target tm))%list |}.

Definition steps := rtc step.

(* The order the specification asks for, in its words: the session is
   never closed (its record removed) before its capacity was released. *)
Definition releaseBeforeClose (calls : list (Z * call)) : Prop :=
  forall (i : nat) t s, calls !! i = Some (t, closeSession s) ->
    exists (j : nat) t', (j < i)%nat /\ calls !! j = Some (t', releaseResources s).

(* The order of the callback: a release comes right after the close of
   the same session, at the same time. *)
Definition closeThenRelease (calls : list (Z * call)) : Prop :=
  forall (j : nat) t s, calls !! j = Some (t, releaseResources s) ->
    exists i : nat, j = S i /\ calls !! i = Some (t, closeSession s).

(* The trigger of the specification, in its words:
   now - creationTime >= maxDuration OR now - lastActivity >= idleTimeout *)
Definition specTrigger (now creationTime lastActivity maxDuration idleTimeout : Z) : bool :=
  (maxDuration <=? now - creationTime) || (idleTimeout <=? now - lastActivity).

End Cleanup.

(* ------------------------------------------------------------------ *)
(* The capacity registry                                               *)
(* ------------------------------------------------------------------ *)
Module CapacityRegistry.

(** Modelled from the spec: the health status of a RenderServer (the
    sources have no registry of servers beyond the Redis keys). *)
Inductive health := Healthy | Draining | Unreachable.

(** Modelled from the spec: a RenderServer as the Capacity Registry holds
    it, with its load count, its maxCapacity and its health status. *)
Record RenderServer := { load : Z; maxCapacity : Z; status : health }.

Abbreviation registry := (gmap string RenderServer).

(** Modelled from the spec: the part of a Session the release protocol
    reads and writes, its assigned server and its terminal-transition
    flag. *)
Record Session := {
  assignedServer : string;
  terminalFlag : bool           (* set once the slot has been released *)
}.

(** Modelled from the spec: release(serverId) of the Capacity Registry.
    The sources only call releaseResources(session), which no file
    defines.  The load is decremented and floored at 0; a decrement
    below 0 is reported (the flag) and clamped. *)
Definition release (serverId : string) (reg : registry) : registry * bool :=
  match reg !! serverId with
  | Some srv =>
      (<[serverId := {| load := Z.max 0 (load srv - 1);
                        maxCapacity := maxCapacity srv;
                        status := status srv |}]> reg,
       load srv <=? 0)
  | None => (reg, false)
  end.

(** Modelled from the spec: the release of a terminated session's slot,
    tied to the session's terminal-transition flag, which is checked and
    set exactly once; a release on an already released slot is a
    no-op. *)
Definition releaseSlot (s : Session) (reg : registry) : Session * registry :=
  if terminalFlag s then (s, reg)
  else ({| assignedServer := assignedServer s; terminalFlag := true |},
        fst (release (assignedServer s) reg)).

Definition loadAt (reg : registry) (serverId : string) : Z :=
  default 0 (load <$> reg !! serverId).

End CapacityRegistry.

(* ------------------------------------------------------------------ *)
(* Concrete key spaces                                                 *)
(* ------------------------------------------------------------------ *)
Module Scenario.
Import SessionManager.

Definition plain (v : Redis.rvalue) : Redis.entry :=
  {| Redis.value := v; Redis.ttl := None |}.

(* servers A and B, loads 2 and 1, SMEMBERS answering A first *)
Definition unequal : Redis.db :=
  <[serversKey := plain (Redis.RSet ["A"; "B"])]>
    (<[loadKey "A" := plain (Redis.RString "2")]>
       (<[loadKey "B" := plain (Redis.RString "1")]> ∅)).

(* servers A and B, both at load 1, SMEMBERS answering B first *)
Definition tie : Redis.db :=
  <[serversKey := plain (Redis.RSet ["B"; "A"])]>
    (<[loadKey "A" := plain (Redis.RString "1")]>
       (<[loadKey "B" := plain (Redis.RString "1")]> ∅)).

(* one server with one free slot *)
Definition lastSlot : Redis.db :=
  <[serversKey := plain (Redis.RSet ["A"])]>
    (<[loadKey "A" := plain (Redis.RString "3")]> ∅).

(* one server, full *)
Definition saturated : Redis.db :=
  <[serversKey := plain (Redis.RSet ["A"])]>
    (<[loadKey "A" := plain (Redis.RString "4")]> ∅).

(* the class as it is written: it has no method createNewServer *)
Definition notAFunction : outcome server :=
  Err (TypeError "this.createNewServer is not a function").

(* a collaborator that rejects *)
Definition unavailable : outcome server := Err (Rejection "ProvisioningUnavailable").

(* a collaborator that answers with a new, empty server *)
Definition provisioned : outcome server := Ok {| id := "C"; load := Some 0 |}.

(* what two calls for user u1 return on the key space unequal *)
Definition firstSession : session := {|
  userId := "u1"; serverId := "A";
  subdomain := "session-1000.ps.domain.com";
  startTime := 1000; maxDuration := 1800000
|}.

(* what a call for userId returns on the key space lastSlot *)
Definition slotSession (userId : string) : session := {|
  userId := userId; serverId := "A";
  subdomain := "session-1000.ps.domain.com";
  startTime := 1000; maxDuration := 1800000
|}.

Definition secondSession : session := {|
  userId := "u1"; serverId := "A";
  subdomain := "session-2000.ps.domain.com";
  startTime := 2001; maxDuration := 1800000
|}.

End Scenario.

(* ------------------------------------------------------------------ *)
(* What holds of every call, however the calls interleave             *)
(* ------------------------------------------------------------------ *)
Module Invariant.
Import SessionManager.

(* serverId is the first member of the server set, in the order of
   SMEMBERS, whose counter reads below 4 *)
Definition firstSpare (st : Redis.db) (serverId : string) : Prop :=
  exists before after,
    Redis.smembers serversKey st = Ok (before ++ serverId :: after)%list /\
    Forall (fun other => full st other = true) before /\
    spare st serverId = true.

(* s is a session as assignSession builds it on the key space st0 *)
Definition placedOn (st0 : Redis.db) (s : session) : Prop :=
  firstSpare st0 (serverId s) /\ maxDuration s = 30 * 60 * 1000.

(* SETEX key seconds v stores the record of such a session, under the
   key of its user *)
Definition storesRecord (st0 : Redis.db) (key : string) (seconds : Z) (v : string) : Prop :=
  exists s,
    key = sessionKey (userId s) /\ seconds = 1800 /\ v = JSON_stringify s /\
    placedOn st0 s.

(* What a pending call may still do, given that the keys it reads hold
   what they held in st0: it reads no session key, it stores only records
   of sessions placed on st0, and it returns only values in Q. *)
Inductive safe {A : Type} (st0 : Redis.db) (Q : A -> Prop) : prog A -> Prop :=
| safe_return a : Q a -> safe st0 Q (Return a)
| safe_throw e : safe st0 Q (Throw e)
| safe_smembers key k :
    ~ isSessionKey key ->
    (forall members, Redis.smembers key st0 = Ok members -> safe st0 Q (k members)) ->
    safe st0 Q (Smembers key k)
| safe_get key k :
    ~ isSessionKey key ->
    (forall v, Redis.get key st0 = Ok v -> safe st0 Q (k v)) ->
    safe st0 Q (Get key k)
| safe_setex key seconds v k :
    storesRecord st0 key seconds v -> safe st0 Q k ->
    safe st0 Q (Setex key seconds v k)
| safe_create k :
    (forall srv, safe st0 Q (k srv)) -> safe st0 Q (CreateNewServer k).

(* every key holds what it held in st0, or the record of a session
   placed on st0, under the key of that session's user *)
Definition storeOk (st0 st : Redis.db) : Prop :=
  forall key,
    st !! key = st0 !! key \/
    exists s, key = sessionKey (userId s) /\ st !! key = Some (record s) /\
              placedOn st0 s.

End Invariant.

(* ------------------------------------------------------------------ *)
(* Counters written in decimal                                         *)
(* ------------------------------------------------------------------ *)
Module Digits.

(* a string that starts with a decimal digit and does not go on with x
   or X: parseInt reads it in radix 10 *)
Definition plainDigits (s : string) : bool :=
  match s with
  | String c rest =>
      match radixDigit 10 c with
      | Some _ =>
          match rest with
          | String c' _ => negb (Ascii.eqb c' "x") && negb (Ascii.eqb c' "X")
          | EmptyString => true
          end
      | None => false
      end
  | EmptyString => false
  end.

(* a character of a decimal numeral: a digit or the minus sign *)
Definition numericChar (c : ascii) : bool :=
  match radixDigit 10 c with
  | Some _ => true
  | None => Ascii.eqb c "-"
  end.

Fixpoint numeric (s : string) : bool :=
  match s with
  | String c rest => numericChar c && numeric rest
  | EmptyString => true
  end.

(* the characters QuoteJSONString writes with a backslash *)
Definition escaped (c : ascii) : bool :=
  (code c <? 32) || (code c =? 34) || (code c =? 92).

End Digits.

(* ------------------------------------------------------------------ *)
(* Reading the log of the event loop                                   *)
(* ------------------------------------------------------------------ *)
Module CleanupLog.
Import Cleanup.

Definition sessionOf (c : call) : session :=
  match c with
  | closeSession s => s
  | releaseResources s => s
  end.

Definition isClose (entry : Z * call) : bool :=
  match entry.2 with
  | closeSession _ => true
  | releaseResources _ => false
  end.

Definition closeCount (calls : list (Z * call)) : nat :=
  length (List.filter isClose calls).

Definition releaseCount (calls : list (Z * call)) : nat :=
  length (List.filter (fun entry => negb (isClose entry)) calls).

End CleanupLog.

(* ------------------------------------------------------------------ *)
(* The deploy job of the case study (src/pages/index.js, lines 383-402) *)
(* ------------------------------------------------------------------ *)
Module BlueGreen.









End BlueGreen.

(* ------------------------------------------------------------------ *)
(* class RecommendationService (src/pages/index.js, lines 321-365)     *)
(* ------------------------------------------------------------------ *)
Module Recommendation.

Inductive exception :=
| IndexError
| KeyError (key : string)
| Raised (name : string).        (* what a collaborator raises *)

Inductive result (A : Type) :=
| Returned (a : A)
| Raises (e : exception).
Arguments Returned {A} a.
Arguments Raises {A} e.

Definition bind {A B : Type} (r : result A) (f : A -> result B) : result B :=
  match r with
  | Returned a => f a
  | Raises e => Raises e
  end.

(* a match of the index: its metadata, the values being strings *)
Record scored := { metadata : gmap string string }.

(* the keyword arguments of index.query, but for the vector *)
Record request := {
  top_k : Z;
  price_lte : Z;                (* filter: price, $lte *)
  style_eq : string;            (* filter: style *)
  include_metadata : bool
}.

(* The three services behind self.openai and self.index, by what the
   code reads of their answers: the embeddings of .data, the matches of
   .matches, the message contents of .choices. *)
Record services (vector : Type) := {
  embeddings_create : string -> string -> result (list vector);
  index_query : vector -> request -> result (list scored);
  chat_create : string -> list (string * string) -> result (list string)
}.
Arguments embeddings_create {vector} s model input.
Arguments index_query {vector} s v r.
Arguments chat_create {vector} s model messages.

Definition newline : string := String (ascii_of_nat 10) EmptyString.

(* xs[0] *)
Definition first {A : Type} (xs : list A) : result A :=
  match xs with
  | x :: _ => Returned x
  | [] => Raises IndexError
  end.

(* d[key] *)
Definition item (d : gmap string string) (key : string) : result string :=
  match d !! key with
  | Some v => Returned v
  | None => Raises (KeyError key)
  end.

(* f"{r.metadata['name']}: {r.metadata['description']}" *)
Definition line (r : scored) : result string :=
  bind (item (metadata r) "name") (fun name =>
  bind (item (metadata r) "description") (fun description =>
  Returned (name +:+ ": " +:+ description))).

(* the list comprehension *)
Fixpoint lines (matches : list scored) : result (list string) :=
  match matches with
  | [] => Returned []
  | r :: rest =>
      bind (line r) (fun l =>
      bind (lines rest) (fun ls =>
      Returned (l :: ls)))
  end.

Definition recommend {vector : Type} (self : services vector)
    (query : string) (budget : Z) (style : string) : result string :=
  bind (embeddings_create self "text-embedding-3-small" query) (fun data =>
  bind (first data) (fun embedding =>
  bind (index_query self embedding
          {| top_k := 20; price_lte := budget; style_eq := style;
             include_metadata := true |}) (fun matches =>
  bind (lines (take 10 matches)) (fun products =>
  let context := String.concat newline products in
  bind (chat_create self "gpt-4"
          [("system", "You are a professional consultant.");
           ("user", "User query: " +:+ query +:+ newline +:+ "Products:" +:+ newline
                    +:+ context +:+ newline +:+ newline +:+ "Recommend top 3.")])
       (fun choices =>
  first choices))))).

(* the same services, the answer of the index cut after ten matches *)
Definition cutAfterTen {vector : Type} (self : services vector) : services vector :=
  {| embeddings_create := embeddings_create self;
     index_query := fun v r => bind (index_query self v r) (fun matches =>
                                Returned (take 10 matches));
     chat_create := chat_create self |}.

(* a match has the two keys the prompt is built from *)
Definition complete (r : scored) : Prop :=
  is_Some (metadata r !! "name") /\ is_Some (metadata r !! "description").

(* services for the examples: one embedding, the given matches, and a
   chat model that answers with its own prompt *)
Definition echo (matches : list scored) : services unit :=
  {| embeddings_create := fun _ _ => Returned [tt];
     index_query := fun _ _ => Returned matches;
     chat_create := fun _ messages => Returned (snd <$> drop 1 messages) |}.

Definition sofa : scored :=
  {| metadata := <["name" := "Sofa"]> (<["description" := "Grey, three seats"]> ∅) |}.

Definition nameless : scored :=
  {| metadata := <["description" := "No name"]> ∅ |}.

End Recommendation.

(* ------------------------------------------------------------------ *)
(* Error handling (docs/best-practices/error-handling.md)              *)
(* ------------------------------------------------------------------ *)
Module ErrorHandling.

(* An AppError or an instance of one of its subclasses.  stack is what
   Error.captureStackTrace records when the error is made; fields is set
   by ValidationError only, a null value being None. *)
Record appError := {
  name : string;
  message : string;
  statusCode : Z;
  isOperational : bool;
  fields : option (gmap string (option string));
  stack : string
}.

(* class AppError: constructor(message, statusCode, isOperational = true) *)
Definition AppError (message : string) (statusCode : Z) (isOperational : option bool)
    (trace : string) : appError :=
  {| name := "Error"; message := message; statusCode := statusCode;
     isOperational := default true isOperational; fields := None; stack := trace |}.

(* fail(message, statusCode = 400) *)
Definition fail (message : string) (statusCode : option Z) (trace : string) : appError :=
  AppError message (default 400 statusCode) None trace.

Definition named (name' : string) (e : appError) : appError :=
  {| name := name'; message := message e; statusCode := statusCode e;
     isOperational := isOperational e; fields := fields e; stack := stack e |}.

(* class ValidationError: constructor(message, fields = {}) *)
Definition ValidationError (message : string)
    (fields' : option (gmap string (option string))) (trace : string) : appError :=
  let e := named "ValidationError" (AppError message 400 None trace) in
  {| name := name e; message := ErrorHandling.message e; statusCode := statusCode e;
     isOperational := isOperational e; fields := Some (default ∅ fields');
     stack := stack e |}.

(* class NotFoundError: constructor(resource = "Resource") *)
Definition NotFoundError (resource : option string) (trace : string) : appError :=
  named "NotFoundError"
    (AppError (default "Resource" resource +:+ " not found") 404 None trace).

(* class ConflictError: constructor(message) *)
Definition ConflictError (message : string) (trace : string) : appError :=
  named "ConflictError" (AppError message 409 None trace).

(* error.meta?.target of a known request error: a list of field names,
   or the name of an index *)
Inductive target :=
| FieldNames (names : list string)
| IndexName (name' : string).

(* a Prisma.PrismaClientKnownRequestError; target is None when meta or
   meta.target is undefined *)
Record knownRequestError := {
  code : string;
  metaTarget : option target;
  prismaMessage : string;
  prismaStack : string
}.

(* what a service or a handler throws *)
Inductive thrown :=
| App (e : appError)
| KnownRequest (e : knownRequestError)
| Other (message' stack' : string).     (* any other Error *)

(* error.meta?.target?.[0] || "field": an empty string is falsy *)
Definition firstOfTarget (t : option target) : string :=
  let first :=
    match t with
    | Some (FieldNames (n :: _)) => n
    | Some (IndexName (String c _)) => String c EmptyString
    | _ => ""
    end in
  if decide (first = "") then "field" else first.

(* handlePrismaError(error): every path throws; the result is what is
   thrown *)
Definition handlePrismaError (trace : string) (error : thrown) : thrown :=
  match error with
  | KnownRequest e =>
      if decide (code e = "P2002") then
        App (ConflictError (firstOfTarget (metaTarget e) +:+ " already exists") trace)
      else if decide (code e = "P2025") then App (NotFoundError None trace)
      else if decide (code e = "P2003") then App (fail "Invalid reference" (Some 400) trace)
      else if decide (code e = "P2014") then
        App (fail "Cannot delete: related records exist" (Some 400) trace)
      else App (fail "Database error" (Some 500) trace)
  | _ => error
  end.

Inductive json :=
| JBool (b : bool)
| JString (s : string)
| JOther (text : string).        (* any other value, by its JSON text *)

(* res.status(status).json(body), the body in the order of its keys *)
Record response := { status : Z; body : list (string * json) }.

Record request := { path : string; method : string }.

(* what logger.error is given *)
Record logged := {
  logMessage : string;
  logStack : string;
  logPath : string;
  logMethod : string
}.

Definition messageOf (err : thrown) : string :=
  match err with
  | App e => message e
  | KnownRequest e => prismaMessage e
  | Other m _ => m
  end.

Definition stackOf (err : thrown) : string :=
  match err with
  | App e => stack e
  | KnownRequest e => prismaStack e
  | Other _ s => s
  end.

(* err.isOperational, undefined being falsy *)
Definition operational (err : thrown) : bool :=
  match err with
  | App e => isOperational e
  | _ => false
  end.

(* errorHandler(err, req, res, next) of middleware/errorHandler.js;
   NODE_ENV is process.env.NODE_ENV *)
Definition errorHandler (NODE_ENV : option string) (err : thrown) (req : request)
  : logged * response :=
  let entry := {| logMessage := messageOf err; logStack := stackOf err;
                  logPath := path req; logMethod := method req |} in
  match err with
  | App e =>
      if isOperational e then
        (entry,
         {| status := statusCode e;
            body := [("success", JBool false); ("message", JString (message e))]
                    ++ (if decide (NODE_ENV = Some "development")
                        then [("stack", JString (stack e))] else []) |})
      else
        (entry,
         {| status := 500;
            body := [("success", JBool false);
                     ("message", JString "Internal server error")] |})
  | _ =>
      (entry,
       {| status := 500;
          body := [("success", JBool false);
                   ("message", JString "Internal server error")] |})
  end.

(* a detail of the error of schema.validate *)
Record detail := { detailPath : list string; detailMessage : string }.

(* detail.path[0] as a property key: undefined, for an empty path, is
   the key "undefined" *)
Definition fieldOf (d : detail) : string :=
  match detailPath d with
  | key :: _ => key
  | [] => "undefined"
  end.

(* error.details.forEach((detail) => { fields[detail.path[0]] = detail.message }) *)
Definition collect (details : list detail) : gmap string (option string) :=
  foldl (fun fields' d => <[fieldOf d := Some (detailMessage d)]> fields') ∅ details.

(* what the middleware of validate(schema) does: it throws, or it sets
   req.body and calls next *)
Inductive validated (B : Type) :=
| Throws (e : thrown)
| Next (body' : B).
Arguments Throws {B} e.
Arguments Next {B} body'.

(* validate(schema); schemaValidate is schema.validate(req.body, ...):
   the details of its error, if it has one, and its value *)
Definition validate {B : Type} (schemaValidate : B -> option (list detail) * B)
    (trace : string) (reqBody : B) : validated B :=
  match schemaValidate reqBody with
  | (Some details, _) =>
      Throws (App (ValidationError "Validation failed" (Some (collect details)) trace))
  | (None, value) => Next value
  end.

(* success(res, data = null, message = null, statusCode = 200):
   timestamp is new Date().toISOString(); data is the JSON text of a
   value that is not null; an empty message is falsy *)
Definition success (timestamp : string) (data : option string) (message' : option string)
    (statusCode' : option Z) : response :=
  {| status := default 200 statusCode';
     body := [("success", JBool true); ("timestamp", JString timestamp)]
             ++ match message' with
                | Some m => if decide (m = "") then [] else [("message", JString m)]
                | None => []
                end
             ++ match data with
                | Some d => [("data", JOther d)]
                | None => []
                end |}.

(* how an awaited call of the database ends *)
Inductive awaited (A : Type) :=
| Resolved (a : A)
| Rejected (e : thrown).
Arguments Resolved {A} a.
Arguments Rejected {A} e.

(* The database behind prisma.user: findUnique answers with the user of
   the e-mail of the data, if there is one, and create with the user
   made, both as JSON text. *)
Record database (B : Type) := {
  findUnique : B -> awaited (option string);
  create : B -> awaited string
}.
Arguments findUnique {B} d data.
Arguments create {B} d data.

(* the stacks recorded where the three kinds of error are made *)
Record traces := { atValidate : string; atConflict : string; atPrisma : string }.

(* createUser(data) of services/user.service.js *)
Definition createUser {B : Type} (prisma : database B) (at' : traces) (data : B)
  : awaited string :=
  match findUnique prisma data with
  | Rejected e => Rejected e
  | Resolved (Some existing) =>
      Rejected (App (ConflictError "Email already registered" (atConflict at')))
  | Resolved None =>
      match create prisma data with
      | Resolved user => Resolved user
      | Rejected error => Rejected (handlePrismaError (atPrisma at') error)
      end
  end.

(* POST /api/users: validate(createUserSchema), then
   asyncHandler(userController.create), every error going to
   errorHandler *)
Definition postUsers {B : Type} (schemaValidate : B -> option (list detail) * B)
    (prisma : database B) (at' : traces) (NODE_ENV : option string) (timestamp : string)
    (reqBody : B) (req : request) : response :=
  match validate schemaValidate (atValidate at') reqBody with
  | Throws e => (errorHandler NODE_ENV e req).2
  | Next validBody =>
      match createUser prisma at' validBody with
      | Rejected e => (errorHandler NODE_ENV e req).2
      | Resolved user => success timestamp (Some user) (Some "User created") (Some 201)
      end
  end.

(* the stack, sent in development only *)
Definition stackIfDevelopment (NODE_ENV : option string) (trace : string)
  : list (string * json) :=
  if decide (NODE_ENV = Some "development") then [("stack", JString trace)] else [].


End ErrorHandling.

(* ------------------------------------------------------------------ *)
(* The health endpoint and its probe (docs/intro.md)                   *)
(* ------------------------------------------------------------------ *)
Module Health.
Import ErrorHandling.

(* how an awaited check ends: it resolves, or it rejects with an error
   of the given message *)
Inductive check :=
| Passes
| Fails (errorMessage : string).

(* router.get("/health", ...): queryRaw is how prisma.$queryRaw`SELECT 1`
   ends and ping how redis.ping() ends; the other three are the texts of
   the time stamp, the uptime and the memory usage *)
Definition health (queryRaw ping : check) (timestamp uptime memory : string) : response :=
  let unhealthy (errorMessage : string) :=
    {| status := 503;
       body := [("status", JString "unhealthy"); ("error", JString errorMessage)] |} in
  match queryRaw with
  | Fails errorMessage => unhealthy errorMessage
  | Passes =>
      match ping with
      | Fails errorMessage => unhealthy errorMessage
      | Passes =>
          {| status := 200;
             body := [("status", JString "healthy"); ("timestamp", JString timestamp);
                      ("uptime", JOther uptime); ("memory", JOther memory);
                      ("database", JString "connected");
                      ("redis", JString "connected")] |}
      end
  end.



End Health.

(* ------------------------------------------------------------------ *)
(* What the loop reads                                                 *)
(* ------------------------------------------------------------------ *)
Module Reading.
Import SessionManager.

Example parseInt_digits : parseInt (Some "3") = Some 3.
Proof. reflexivity. Qed.

Example parseInt_prefix : parseInt (Some "  -12abc") = Some (-12).
Proof. reflexivity. Qed.

Example parseInt_hex : parseInt (Some "0x1f") = Some 31.
Proof. reflexivity. Qed.

Example parseInt_empty : parseInt (Some "") = None.
Proof. reflexivity. Qed.

(* a counter that does not exist is read as null, which is not a number *)
Example parseInt_null : parseInt None = None.
Proof. reflexivity. Qed.

(* a server without a counter is passed over, like a full one *)
Example missing_counter_is_full : full Scenario.unequal "Z" = true.
Proof. vm_compute. reflexivity. Qed.

(* a negative counter counts as spare capacity *)
Example negative_counter_is_spare :
  spare (<[loadKey "A" := Scenario.plain (Redis.RString "-1")]> ∅) "A" = true.
Proof. vm_compute. reflexivity. Qed.

(* a counter of another type makes the search fail *)
Example wrong_type_fails :
  (exec Scenario.notAFunction findAvailableServer
     (<[loadKey "A" := Scenario.plain Redis.ROther]> Scenario.lastSlot)).1
  = Err Redis.WRONGTYPE.
Proof. vm_compute. reflexivity. Qed.

Example stored_value :
  JSON_stringify Scenario.firstSession
  = "{" +:+ quoteJSONString "userId" +:+ ":" +:+ quoteJSONString "u1" +:+ ","
    +:+ quoteJSONString "serverId" +:+ ":" +:+ quoteJSONString "A" +:+ ","
    +:+ quoteJSONString "subdomain" +:+ ":"
    +:+ quoteJSONString "session-1000.ps.domain.com" +:+ ","
    +:+ quoteJSONString "startTime" +:+ ":1000,"
    +:+ quoteJSONString "maxDuration" +:+ ":1800000}".
Proof. vm_compute. reflexivity. Qed.

End Reading.

(* ------------------------------------------------------------------ *)
(* Keys                                                                *)
(* ------------------------------------------------------------------ *)
Module Keys.
Import SessionManager.

Lemma sessionKey_not_serversKey userId : sessionKey userId <> serversKey.
Proof. unfold sessionKey, serversKey. simpl. discriminate. Qed.

Lemma sessionKey_not_loadKey userId serverId : sessionKey userId <> loadKey serverId.
Proof. unfold sessionKey, loadKey. simpl. discriminate. Qed.

Lemma sessionKey_inj u1 u2 : sessionKey u1 = sessionKey u2 -> u1 = u2.
Proof. unfold sessionKey. simpl. intros H. by simplify_eq. Qed.

Lemma serversKey_not_session : ~ isSessionKey serversKey.
Proof. intros [u Hu]. symmetry in Hu. by apply sessionKey_not_serversKey in Hu. Qed.

Lemma loadKey_not_session serverId : ~ isSessionKey (loadKey serverId).
Proof. intros [u Hu]. symmetry in Hu. by apply sessionKey_not_loadKey in Hu. Qed.

End Keys.

(* ------------------------------------------------------------------ *)
(* Running one call                                                    *)
(* ------------------------------------------------------------------ *)
Module Exec.
Import SessionManager.

Lemma setex_1800 key v st :
  Redis.setex key 1800 v st
  = (Ok tt, <[key := {| Redis.value := Redis.RString v; Redis.ttl := Some 1800 |}]> st).
Proof. reflexivity. Qed.

Lemma setex_other key seconds v st key' :
  key <> key' -> (Redis.setex key seconds v st).2 !! key' = st !! key'.
Proof.
  intros Hne. unfold Redis.setex. destruct (seconds <=? 0); simpl; [done|].
  by rewrite lookup_insert_ne.
Qed.

Lemma exec_bind {A B : Type} prov (p : prog A) (f : A -> prog B) st :
  exec prov (bind p f) st
  = match exec prov p st with
    | (Ok a, st') => exec prov (f a) st'
    | (Err e, st') => (Err e, st')
    end.
Proof.
  revert st. induction p as [a|e|key k IH|key k IH|key seconds v k IH|k IH]; intros st; simpl.
  - done.
  - done.
  - destruct (Redis.smembers key st); [apply IH | done].
  - destruct (Redis.get key st); [apply IH | done].
  - destruct (Redis.setex key seconds v st) as [[[]|e] st']; [apply IH | done].
  - destruct prov; [apply IH | done].
Qed.

(* a call changes no key outside the ones it may write *)
Lemma exec_frame {A : Type} (P : string -> Prop) prov (p : prog A) st key :
  writesOnly P p -> ~ P key -> (exec prov p st).2 !! key = st !! key.
Proof.
  intros Hp Hkey. revert st.
  induction Hp as [a|e|k0 k _ IH|k0 k _ IH|k0 seconds v k HP _ IH|k _ IH]; intros st; simpl.
  - done.
  - done.
  - destruct (Redis.smembers k0 st); [apply IH | done].
  - destruct (Redis.get k0 st); [apply IH | done].
  - pose proof (setex_other k0 seconds v st key) as Hother.
    destruct (Redis.setex k0 seconds v st) as [[[]|e] st']; simpl in *.
    + rewrite IH. apply Hother. intros ->. by apply Hkey.
    + apply Hother. intros ->. by apply Hkey.
  - destruct prov; [apply IH | done].
Qed.

Lemma writesOnly_bind {A B : Type} (P : string -> Prop) (p : prog A) (f : A -> prog B) :
  writesOnly P p -> (forall a, writesOnly P (f a)) -> writesOnly P (bind p f).
Proof.
  intros Hp Hf. induction Hp; simpl; try (constructor; auto). apply Hf.
Qed.

Lemma writesOnly_scanServers P servers : writesOnly P (scanServers servers).
Proof.
  induction servers as [|serverId rest IH]; simpl; constructor.
  intros load. destruct (lessThan (parseInt load) 4); [constructor | apply IH].
Qed.

Lemma writesOnly_findAvailableServer P : writesOnly P findAvailableServer.
Proof. constructor. apply writesOnly_scanServers. Qed.

Lemma writesOnly_assignSession now1 now2 userId :
  writesOnly (fun key => key = sessionKey userId) (assignSession now1 now2 userId).
Proof.
  apply writesOnly_bind; [apply writesOnly_findAvailableServer|].
  intros [srv|]; repeat constructor.
Qed.

Lemma writesOnly_weaken {A : Type} (P Q : string -> Prop) (p : prog A) :
  (forall key, P key -> Q key) -> writesOnly P p -> writesOnly Q p.
Proof. intros HPQ Hp. induction Hp; constructor; auto. Qed.

(* findAvailableServer writes nothing *)
Lemma findAvailableServer_reads prov st :
  (exec prov findAvailableServer st).2 = st.
Proof.
  apply map_eq. intros key.
  apply (exec_frame (fun _ => False)); [apply writesOnly_findAvailableServer | tauto].
Qed.

End Exec.

(* ------------------------------------------------------------------ *)
(* findAvailableServer                                                 *)
(* ------------------------------------------------------------------ *)
Module Selection.
Import SessionManager.

Lemma spare_or_full st serverId v :
  Redis.get (loadKey serverId) st = Ok v ->
  spare st serverId = lessThan (parseInt v) 4 /\
  full st serverId = negb (lessThan (parseInt v) 4) /\
  loadOf st serverId = parseInt v.
Proof. intros H. unfold spare, full, loadOf. by rewrite H. Qed.

Lemma scanServers_none prov servers st st' :
  exec prov (scanServers servers) st = (Ok None, st')
  <-> st' = st /\ Forall (fun serverId => full st serverId = true) servers.
Proof.
  induction servers as [|serverId rest IH]; simpl.
  - split; [intros [= <-]; auto | intros [-> _]; done].
  - destruct (Redis.get (loadKey serverId) st) as [v|e] eqn:Hget.
    + destruct (spare_or_full _ _ _ Hget) as (_ & Hfull & _).
      destruct (lessThan (parseInt v) 4) eqn:Hlt; simpl in *.
      * split; [discriminate|]. intros [_ Hall]. inversion Hall; congruence.
      * rewrite IH. split.
        -- intros [-> Hall]. split; [done|]. by constructor.
        -- intros [-> Hall]. split; [done|]. by inversion Hall.
    + split; [discriminate|]. intros [_ Hall]. inversion Hall as [|? ? Hf _].
      unfold full in Hf. by rewrite Hget in Hf.
Qed.

Lemma scanServers_some prov servers st st' srv :
  exec prov (scanServers servers) st = (Ok (Some srv), st')
  <-> st' = st /\
      exists before after,
        servers = (before ++ id srv :: after)%list /\
        Forall (fun serverId => full st serverId = true) before /\
        spare st (id srv) = true /\
        load srv = loadOf st (id srv).
Proof.
  induction servers as [|serverId rest IH]; simpl.
  - split; [discriminate|]. intros (_ & before & after & Hsplit & _).
    by destruct before.
  - destruct (Redis.get (loadKey serverId) st) as [v|e] eqn:Hget.
    + destruct (spare_or_full _ _ _ Hget) as (Hspare & Hfull & Hload).
      destruct (lessThan (parseInt v) 4) eqn:Hlt; simpl in *.
      * split.
        -- intros [= <- <-]. split; [done|]. exists [], rest. simpl.
           rewrite Hspare, Hload. auto.
        -- intros (-> & before & after & Hsplit & Hbefore & Hsp & Hld).
           destruct before as [|b before]; simpl in Hsplit.
           ++ injection Hsplit as -> _. destruct srv as [i l]; simpl in *.
              rewrite Hld, Hload. done.
           ++ injection Hsplit as -> _. inversion Hbefore; congruence.
      * rewrite IH. split.
        -- intros (-> & before & after & -> & Hbefore & Hsp & Hld).
           split; [done|]. exists (serverId :: before), after. simpl.
           repeat split; auto.
        -- intros (-> & before & after & Hsplit & Hbefore & Hsp & Hld).
           split; [done|]. destruct before as [|b before]; simpl in Hsplit.
           ++ injection Hsplit as -> _. congruence.
           ++ injection Hsplit as -> ->. exists before, after.
              inversion Hbefore. auto.
    + split; [discriminate|].
      intros (_ & before & after & Hsplit & Hbefore & Hsp & _).
      destruct before as [|b before]; simpl in Hsplit.
      * injection Hsplit as -> _. unfold spare in Hsp. by rewrite Hget in Hsp.
      * injection Hsplit as -> _. inversion Hbefore as [|? ? Hf _].
        unfold full in Hf. by rewrite Hget in Hf.
Qed.

Lemma findAvailableServer_unfold prov st :
  exec prov findAvailableServer st
  = match Redis.smembers serversKey st with
    | Ok servers => exec prov (scanServers servers) st
    | Err e => (Err e, st)
    end.
Proof. reflexivity. Qed.

End Selection.

Module Placement.
Import SessionManager.

(** C3 (as the code has it): findAvailableServer is first fit.  It
    answers a server exactly when the server set splits into servers
    whose load was read as 4 or more (or not a number), followed by that
    server, whose load was read below 4; it answers null exactly when
    every member of the set was read as 4 or more or not a number; and it
    writes nothing.  No ratio, health status or server ID is compared. *)
Theorem findAvailableServer_first_fit prov st :
  (forall srv,
      exec prov findAvailableServer st = (Ok (Some srv), st)
      <-> exists before after,
            Redis.smembers serversKey st = Ok (before ++ id srv :: after)%list /\
            Forall (fun serverId => full st serverId = true) before /\
            spare st (id srv) = true /\
            load srv = loadOf st (id srv))
  /\ (exec prov findAvailableServer st = (Ok None, st)
      <-> exists servers,
            Redis.smembers serversKey st = Ok servers /\
            Forall (fun serverId => full st serverId = true) servers)
  /\ (exec prov findAvailableServer st).2 = st.
Proof.
  split; [|split].
  - intros srv. rewrite Selection.findAvailableServer_unfold.
    destruct (Redis.smembers serversKey st) as [servers|e].
    + rewrite Selection.scanServers_some. split.
      * intros (_ & before & after & -> & H). eauto.
      * intros (before & after & [= ->] & H). eauto.
    + split; [discriminate|]. by intros (? & ? & ? & _).
  - rewrite Selection.findAvailableServer_unfold.
    destruct (Redis.smembers serversKey st) as [servers|e].
    + rewrite Selection.scanServers_none. split.
      * intros [_ H]. eauto.
      * intros (? & [= <-] & H). eauto.
    + split; [discriminate|]. by intros (? & ? & _).
  - apply Exec.findAvailableServer_reads.
Qed.

(** C3 fails as stated: with A at load 2 and B at load 1 the search
    answers A when SMEMBERS lists A first, and on a tie at load 1 it
    answers B when SMEMBERS lists B first.  Whichever of A and B the set
    lists first, one of the two examples of the claim fails. *)
Lemma findAvailableServer_not_least_loaded :
  (exec Scenario.notAFunction findAvailableServer Scenario.unequal).1
    = Ok (Some {| id := "A"; load := Some 2 |})
  /\ loadOf Scenario.unequal "B" = Some 1
  /\ (exec Scenario.notAFunction findAvailableServer Scenario.tie).1
    = Ok (Some {| id := "B"; load := Some 1 |})
  /\ loadOf Scenario.tie "A" = Some 1.
Proof. vm_compute. done. Qed.

Lemma assignSession_unfold prov now1 now2 userId st :
  exec prov (assignSession now1 now2 userId) st
  = match exec prov findAvailableServer st with
    | (Ok (Some srv), st1) =>
        let session := {|
          userId := userId;
          serverId := id srv;
          subdomain := "session-" +:+ NumberToString now1 +:+ ".ps.domain.com";
          startTime := now2;
          maxDuration := 30 * 60 * 1000
        |} in
        (Ok session, <[sessionKey userId := record session]> st1)
    | (Ok None, st1) =>
        match prov with
        | Ok _ => (Err (TypeError "Assignment to constant variable."), st1)
        | Err e => (Err e, st1)
        end
    | (Err e, st1) => (Err e, st1)
    end.
Proof.
  unfold assignSession. rewrite Exec.exec_bind.
  destruct (exec prov findAvailableServer st) as [[[srv|]|e] st1]; simpl; try done;
    by destruct prov.
Qed.

(* a successful call: the server found, the session built, the record stored *)
Lemma assignSession_ok prov now1 now2 u st s st' :
  exec prov (assignSession now1 now2 u) st = (Ok s, st') ->
  exists srv,
    exec prov findAvailableServer st = (Ok (Some srv), st) /\
    userId s = u /\ serverId s = id srv /\ startTime s = now2 /\
    maxDuration s = 1800000 /\
    st' = <[sessionKey u := record s]> st.
Proof.
  rewrite assignSession_unfold.
  pose proof (Exec.findAvailableServer_reads prov st) as Hst.
  destruct (exec prov findAvailableServer st) as [[[srv|]|e] st1]; simpl in *; subst st1.
  - intros [= <- <-]. exists srv. simpl. repeat split; reflexivity.
  - destruct prov; discriminate.
  - discriminate.
Qed.

(* the search reads the server set and the load counters only *)
Lemma scanServers_ext prov servers st1 st2 :
  (forall serverId, st1 !! loadKey serverId = st2 !! loadKey serverId) ->
  (exec prov (scanServers servers) st1).1 = (exec prov (scanServers servers) st2).1.
Proof.
  intros Hload. induction servers as [|serverId rest IH]; simpl; [done|].
  unfold Redis.get. rewrite Hload.
  destruct (Redis.value <$> st2 !! loadKey serverId) as [[v| |]|]; simpl; try done;
    by destruct (lessThan (parseInt _) 4).
Qed.

Lemma findAvailableServer_ext prov st1 st2 :
  st1 !! serversKey = st2 !! serversKey ->
  (forall serverId, st1 !! loadKey serverId = st2 !! loadKey serverId) ->
  (exec prov findAvailableServer st1).1 = (exec prov findAvailableServer st2).1.
Proof.
  intros Hset Hload. rewrite !Selection.findAvailableServer_unfold.
  unfold Redis.smembers. rewrite Hset.
  destruct (Redis.value <$> st2 !! serversKey) as [[v|members|]|]; simpl; try done;
    by apply scanServers_ext.
Qed.

Lemma assignSession_ext prov now1 now2 u st1 st2 :
  st1 !! serversKey = st2 !! serversKey ->
  (forall serverId, st1 !! loadKey serverId = st2 !! loadKey serverId) ->
  (exec prov (assignSession now1 now2 u) st1).1
  = (exec prov (assignSession now1 now2 u) st2).1.
Proof.
  intros Hset Hload. rewrite !assignSession_unfold.
  pose proof (findAvailableServer_ext prov st1 st2 Hset Hload) as Hfind.
  destruct (exec prov findAvailableServer st1) as [[[srv1|]|e1] st1'],
           (exec prov findAvailableServer st2) as [[[srv2|]|e2] st2'];
    simpl in *; try discriminate; try (destruct prov; done); congruence.
Qed.

(** C9: a call of assignSession, whether it succeeds or fails, leaves the
    server set cirrus:servers and every load counter cirrus:{serverId}:load
    as they were: it reads the counters and never writes one. *)
Theorem assignSession_frame prov now1 now2 userId st :
  let st' := (exec prov (assignSession now1 now2 userId) st).2 in
  st' !! serversKey = st !! serversKey /\
  forall serverId, st' !! loadKey serverId = st !! loadKey serverId.
Proof.
  cbv zeta. split; [|intros serverId];
    apply (Exec.exec_frame (fun key => key = sessionKey userId));
    try apply Exec.writesOnly_assignSession.
  - intros H. symmetry in H. by apply Keys.sessionKey_not_serversKey in H.
  - intros H. symmetry in H. by apply Keys.sessionKey_not_loadKey in H.
Qed.

(** C8 (as the code has it): the expire time given to the stored record,
    in seconds, is the session's maxDuration, in milliseconds: 1800 s for
    1 800 000 ms.  No grace period is added. *)
Theorem stored_ttl_equals_maxDuration prov now1 now2 u st s st' :
  exec prov (assignSession now1 now2 u) st = (Ok s, st') ->
  exists seconds,
    st' !! sessionKey u
    = Some {| Redis.value := Redis.RString (JSON_stringify s);
              Redis.ttl := Some seconds |} /\
    seconds * 1000 = maxDuration s.
Proof.
  intros Hok. apply assignSession_ok in Hok as (srv & _ & _ & _ & _ & Hmax & ->).
  exists 1800. rewrite lookup_insert_eq, Hmax. done.
Qed.

Lemma stored_ttl_equals_maxDuration_witness :
  exists seconds,
    (<[sessionKey "u1" := record Scenario.firstSession]> Scenario.unequal)
      !! sessionKey "u1"
    = Some {| Redis.value := Redis.RString (JSON_stringify Scenario.firstSession);
              Redis.ttl := Some seconds |} /\
    seconds * 1000 = maxDuration Scenario.firstSession.
Proof.
  apply (stored_ttl_equals_maxDuration Scenario.notAFunction 1000 1000 "u1"
           Scenario.unequal).
  vm_compute. reflexivity.
Defined.

(** C8 fails as stated: the record stored for u1 expires after 1800 s,
    which is not more than the session's maxDuration of 1 800 000 ms. *)
Lemma stored_ttl_has_no_grace :
  let r := exec Scenario.notAFunction (assignSession 1000 1000 "u1") Scenario.unequal in
  r.1 = Ok Scenario.firstSession /\
  Redis.ttl <$> r.2 !! sessionKey "u1" = Some (Some 1800) /\
  ~ (1800 * 1000 > maxDuration Scenario.firstSession).
Proof. vm_compute. repeat split; congruence. Qed.

(** C10: the record of a user lives under the one key session:{userId}.
    A second successful assignSession for the same user leaves the key
    space as the first found it but for that key, which now holds the
    second session with a fresh expire time of 1800 s: the first record
    is gone, and no load counter was touched when it was replaced. *)
Theorem assignSession_overwrites prov1 prov2 now1 now2 now3 now4 u st s1 st1 s2 st2 :
  exec prov1 (assignSession now1 now2 u) st = (Ok s1, st1) ->
  exec prov2 (assignSession now3 now4 u) st1 = (Ok s2, st2) ->
  st1 !! sessionKey u = Some (record s1) /\
  st2 = <[sessionKey u := record s2]> st /\
  st2 !! sessionKey u = Some (record s2) /\
  (forall u', u' <> u -> st2 !! sessionKey u' = st !! sessionKey u') /\
  (forall serverId, st2 !! loadKey serverId = st !! loadKey serverId) /\
  st2 !! serversKey = st !! serversKey.
Proof.
  intros H1 H2.
  apply assignSession_ok in H1 as (srv1 & _ & _ & _ & _ & _ & ->).
  apply assignSession_ok in H2 as (srv2 & _ & _ & _ & _ & _ & ->).
  rewrite insert_insert_eq, !lookup_insert_eq. repeat split; try done.
  - intros u' Hu'. rewrite lookup_insert_ne; [done|].
    intros Heq. by apply Keys.sessionKey_inj in Heq.
  - intros serverId. rewrite lookup_insert_ne; [done|].
    apply Keys.sessionKey_not_loadKey.
  - rewrite lookup_insert_ne; [done|]. apply Keys.sessionKey_not_serversKey.
Qed.

Lemma assignSession_overwrites_witness :
  let st := Scenario.unequal in
  let st2 := <[sessionKey "u1" := record Scenario.secondSession]> st in
  (<[sessionKey "u1" := record Scenario.firstSession]> st) !! sessionKey "u1"
    = Some (record Scenario.firstSession) /\
  st2 = <[sessionKey "u1" := record Scenario.secondSession]> st /\
  st2 !! sessionKey "u1" = Some (record Scenario.secondSession) /\
  (forall u', u' <> "u1" -> st2 !! sessionKey u' = st !! sessionKey u') /\
  (forall serverId, st2 !! loadKey serverId = st !! loadKey serverId) /\
  st2 !! serversKey = st !! serversKey.
Proof.
  apply (assignSession_overwrites Scenario.notAFunction Scenario.notAFunction
           1000 1000 2000 2001 "u1").
  - vm_compute. reflexivity.
  - vm_compute. reflexivity.
Defined.

(** C2 (as the code has it): assignSession makes no check for a session
    the user already has.  Its outcome is the same whether or not
    session:{userId} holds a record, so it never fails because of one;
    when it succeeds the new record takes the place of the old one under
    that key, and when it fails the old record stays. *)
Theorem assignSession_no_active_check prov now1 now2 u st old :
  (exec prov (assignSession now1 now2 u) (<[sessionKey u := old]> st)).1
  = (exec prov (assignSession now1 now2 u) st).1 /\
  match exec prov (assignSession now1 now2 u) (<[sessionKey u := old]> st) with
  | (Ok s, st') => st' = <[sessionKey u := record s]> st
  | (Err _, st') => st' = <[sessionKey u := old]> st
  end.
Proof.
  split.
  - apply assignSession_ext.
    + rewrite lookup_insert_ne; [done|]. apply Keys.sessionKey_not_serversKey.
    + intros serverId. rewrite lookup_insert_ne; [done|].
      apply Keys.sessionKey_not_loadKey.
  - rewrite assignSession_unfold.
    pose proof (Exec.findAvailableServer_reads prov (<[sessionKey u := old]> st)) as Hst.
    destruct (exec prov findAvailableServer (<[sessionKey u := old]> st))
      as [[[srv|]|e] st1]; simpl in *; subst st1.
    + by rewrite insert_insert_eq.
    + by destruct prov.
    + done.
Qed.

(** C2 fails as stated: user u1 holds the session of a first call, and a
    second call for u1 returns a session instead of failing. *)
Lemma second_assignSession_succeeds :
  let r1 := exec Scenario.notAFunction (assignSession 1000 1000 "u1") Scenario.unequal in
  let r2 := exec Scenario.notAFunction (assignSession 2000 2001 "u1") r1.2 in
  r1.1 = Ok Scenario.firstSession /\
  r1.2 !! sessionKey "u1" = Some (record Scenario.firstSession) /\
  r2.1 = Ok Scenario.secondSession.
Proof. vm_compute. done. Qed.

(** C6 (as the code has it): when findAvailableServer answers null,
    assignSession awaits this.createNewServer() and searches no second
    time; when that call fails, assignSession fails with the error of
    that call, whatever it is, and writes nothing. *)
Theorem assignSession_provisioning_failure now1 now2 u st e :
  (exec (Err e) findAvailableServer st).1 = Ok None ->
  exec (Err e) (assignSession now1 now2 u) st = (Err e, st).
Proof.
  intros Hnone. rewrite assignSession_unfold.
  pose proof (Exec.findAvailableServer_reads (Err e) st) as Hst.
  destruct (exec (Err e) findAvailableServer st) as [[[srv|]|e'] st1];
    simpl in *; subst st1; congruence.
Qed.

Lemma assignSession_provisioning_failure_witness :
  exec Scenario.unavailable (assignSession 1000 1000 "u1") Scenario.saturated
  = (Err (Rejection "ProvisioningUnavailable"), Scenario.saturated).
Proof.
  apply (assignSession_provisioning_failure 1000 1000 "u1" Scenario.saturated
           (Rejection "ProvisioningUnavailable")).
  vm_compute. reflexivity.
Defined.

(* the fallback branch when the collaborator answers with a server *)
Lemma assignSession_after_provisioning now1 now2 u st srv :
  (exec (Ok srv) findAvailableServer st).1 = Ok None ->
  exec (Ok srv) (assignSession now1 now2 u) st
  = (Err (TypeError "Assignment to constant variable."), st).
Proof.
  intros Hnone. rewrite assignSession_unfold.
  pose proof (Exec.findAvailableServer_reads (Ok srv) st) as Hst.
  destruct (exec (Ok srv) findAvailableServer st) as [[[srv'|]|e'] st1];
    simpl in *; subst st1; congruence.
Qed.

(** C6 fails as stated: with the only server full, the call fails with a
    TypeError when the class is taken as written (it has no method
    createNewServer), and with the collaborator's own error when a
    collaborator rejects: in neither case with CapacityExhaustedError.
    With a collaborator that answers with a ready server, no session is
    placed. *)
Lemma no_CapacityExhaustedError :
  let call := assignSession 1000 1000 "u1" in
  let r0 := exec Scenario.notAFunction call Scenario.saturated in
  let r := exec Scenario.unavailable call Scenario.saturated in
  let r' := exec Scenario.provisioned call Scenario.saturated in
  r0.1 = Err (TypeError "this.createNewServer is not a function") /\
  r.1 = Err (Rejection "ProvisioningUnavailable") /\
  r0.1 <> Err (Rejection "CapacityExhaustedError") /\
  r.1 <> Err (Rejection "CapacityExhaustedError") /\
  r'.1 = Err (TypeError "Assignment to constant variable.") /\
  r'.2 !! sessionKey "u1" = None.
Proof. vm_compute. repeat split; congruence. Qed.

End Placement.

(* ------------------------------------------------------------------ *)
(* Concurrent calls                                                    *)
(* ------------------------------------------------------------------ *)
Module Concurrency.
Import SessionManager.

Section Confinement.
Context {A : Type} (P : string -> Prop).

Lemma step_writesOnly (p p' : prog A) st st' :
  step p st p' st' -> writesOnly P p -> writesOnly P p'.
Proof.
  intros Hstep Hp. destruct Hstep; inversion Hp; subst; auto; constructor.
Qed.

Lemma step_frame (p p' : prog A) st st' key :
  step p st p' st' -> writesOnly P p -> ~ P key -> st' !! key = st !! key.
Proof.
  intros Hstep Hp Hkey. destruct Hstep as
    [ | | | |k0 seconds v k st st' Hsetex|k0 seconds v k st st' e Hsetex| | ];
    try done.
  - inversion Hp; subst.
    replace st' with (Redis.setex k0 seconds v st).2 by by rewrite Hsetex.
    apply Exec.setex_other. intros ->. done.
  - inversion Hp; subst.
    replace st' with (Redis.setex k0 seconds v st).2 by by rewrite Hsetex.
    apply Exec.setex_other. intros ->. done.
Qed.
End Confinement.

Lemma run_confined calls st calls' st' :
  run (calls, st) (calls', st') ->
  Forall (writesOnly isSessionKey) calls ->
  Forall (writesOnly isSessionKey) calls' /\
  forall key, ~ isSessionKey key -> st' !! key = st !! key.
Proof.
  intros Hrun Hall. inversion Hrun as [now1 now2 u ? ?|i p p' ? ? ? Hi Hstep]; subst.
  - split; [|done]. apply Forall_app. split; [done|]. constructor; [|done].
    eapply Exec.writesOnly_weaken; [|apply Exec.writesOnly_assignSession].
    intros key ->. by exists u.
  - assert (writesOnly isSessionKey p) as Hp.
    { eapply Forall_lookup_1; eauto. }
    split.
    + apply Forall_insert; [done|]. eapply step_writesOnly; eauto.
    + intros key Hkey. eapply step_frame; eauto.
Qed.

Lemma runs_confined x y :
  runs x y ->
  Forall (writesOnly isSessionKey) x.1 ->
  Forall (writesOnly isSessionKey) y.1 /\
  forall key, ~ isSessionKey key -> y.2 !! key = x.2 !! key.
Proof.
  induction 1 as [[calls st]|[calls st] [calls1 st1] [calls2 st2] Hrun _ IH]; simpl in *.
  - done.
  - intros Hall. destruct (run_confined _ _ _ _ Hrun Hall) as [Hall1 Hkeys1].
    destruct (IH Hall1) as [Hall2 Hkeys2]. split; [done|].
    intros key Hkey. rewrite Hkeys2, Hkeys1; done.
Qed.

(* a call run alone is one of the ways it may run *)
Lemma exec_steps {A : Type} prov (p : prog A) st a st' :
  exec prov p st = (Ok a, st') ->
  rtc (fun x y => step x.1 x.2 y.1 y.2) (p, st) (Return a, st').
Proof.
  revert st. induction p as [b|e|key k IH|key k IH|key seconds v k IH|k IH];
    intros st; simpl.
  - intros [= -> ->]. apply rtc_refl.
  - discriminate.
  - destruct (Redis.smembers key st) as [members|e] eqn:Hcmd; [|discriminate].
    intros Hexec. eapply rtc_l; [|apply IH, Hexec]. simpl. by constructor.
  - destruct (Redis.get key st) as [w|e] eqn:Hcmd; [|discriminate].
    intros Hexec. eapply rtc_l; [|apply IH, Hexec]. simpl. by constructor.
  - destruct (Redis.setex key seconds v st) as [[[]|e] st1] eqn:Hcmd; [|discriminate].
    intros Hexec. eapply rtc_l; [|apply IH, Hexec]. simpl. by constructor.
  - destruct prov as [srv|e]; [|discriminate].
    intros Hexec. eapply rtc_l; [|apply IH, Hexec]. simpl. constructor.
Qed.

Lemma await_many (i : nat) calls x y :
  rtc (fun x y => step x.1 x.2 y.1 y.2) x y ->
  calls !! i = Some x.1 ->
  runs (calls, x.2) (<[i := y.1]> calls, y.2).
Proof.
  intros Hsteps. revert calls.
  induction Hsteps as [[p st]|[p st] [p1 st1] [p2 st2] Hstep _ IH]; intros calls Hi;
    simpl in *.
  - rewrite list_insert_id; [apply rtc_refl | done].
  - eapply rtc_l; [eapply run_await; eauto|].
    specialize (IH (<[i := p1]> calls)).
    rewrite list_insert_insert_eq in IH. apply IH.
    apply list_lookup_insert_eq. by eapply lookup_lt_Some.
Qed.

(* a new call arrives and runs to its end before anything else happens *)
Lemma call_completes prov now1 now2 u calls st s st' :
  exec prov (assignSession now1 now2 u) st = (Ok s, st') ->
  runs (calls, st) ((calls ++ [Return s])%list, st').
Proof.
  intros Hexec. eapply rtc_l; [apply (run_call now1 now2 u)|].
  pose proof (await_many (length calls)
                (calls ++ [assignSession now1 now2 u])%list _ _
                (exec_steps _ _ _ _ _ Hexec)) as Hrun.
  simpl in Hrun. rewrite insert_app_r_alt in Hrun by lia.
  rewrite Nat.sub_diag in Hrun. simpl in Hrun. apply Hrun.
  rewrite lookup_app_r by lia. by rewrite Nat.sub_diag.
Qed.

(** C1 (as the code has it): however many assignSession calls run, and
    however their awaits interleave, the server set and every load
    counter stay what they were before the first call, since no call
    writes them; a counter that read within 0..4 still does.  Nothing is
    reserved by a placement. *)
Theorem load_counters_untouched st0 calls st :
  runs ([], st0) (calls, st) ->
  st !! serversKey = st0 !! serversKey /\
  forall serverId,
    st !! loadKey serverId = st0 !! loadKey serverId /\
    loadOf st serverId = loadOf st0 serverId /\
    (loadInBounds st0 serverId -> loadInBounds st serverId).
Proof.
  intros Hruns. apply runs_confined in Hruns as [_ Hkeys]; [|by constructor].
  simpl in Hkeys. split.
  - apply Hkeys, Keys.serversKey_not_session.
  - intros serverId.
    assert (st !! loadKey serverId = st0 !! loadKey serverId) as Heq
      by apply Hkeys, Keys.loadKey_not_session.
    assert (loadOf st serverId = loadOf st0 serverId) as Hload
      by (unfold loadOf, Redis.get; by rewrite Heq).
    repeat split; [done..|]. unfold loadInBounds. by rewrite Hload.
Qed.

Lemma load_counters_untouched_witness :
  let st := <[sessionKey "u1" := record (Scenario.slotSession "u1")]> Scenario.lastSlot in
  st !! serversKey = Scenario.lastSlot !! serversKey /\
  forall serverId,
    st !! loadKey serverId = Scenario.lastSlot !! loadKey serverId /\
    loadOf st serverId = loadOf Scenario.lastSlot serverId /\
    (loadInBounds Scenario.lastSlot serverId -> loadInBounds st serverId).
Proof.
  apply (load_counters_untouched Scenario.lastSlot [Return (Scenario.slotSession "u1")]).
  apply (call_completes Scenario.notAFunction 1000 1000 "u1" []).
  vm_compute. reflexivity.
Defined.

(** C1 fails as stated: server A has one free slot (load 3 of 4); two
    placements, for u1 and for u2, are both assigned to A, and the
    counter of A still reads 3 afterwards. *)
Lemma last_slot_assigned_twice :
  let s1 := Scenario.slotSession "u1" in
  let s2 := Scenario.slotSession "u2" in
  exists st,
    runs ([], Scenario.lastSlot) ([Return s1; Return s2], st) /\
    serverId s1 = "A" /\ serverId s2 = "A" /\
    loadOf Scenario.lastSlot "A" = Some 3 /\
    loadOf st "A" = Some 3.
Proof.
  simpl. eexists. split.
  - etrans.
    + apply (call_completes Scenario.notAFunction 1000 1000 "u1" []).
      vm_compute. reflexivity.
    + apply (call_completes Scenario.notAFunction 1000 1000 "u2"
               [Return (Scenario.slotSession "u1")]).
      vm_compute. reflexivity.
  - vm_compute. done.
Qed.

End Concurrency.

(* ------------------------------------------------------------------ *)
(* The clean-up timer                                                  *)
(* ------------------------------------------------------------------ *)
Module Timer.
Import Cleanup.

Lemma closeThenRelease_nil : closeThenRelease [].
Proof. intros j t s Hj. by rewrite lookup_nil in Hj. Qed.

Lemma closeThenRelease_callback calls t s :
  closeThenRelease calls -> closeThenRelease (calls ++ callback t s).
Proof.
  intros Hcalls j t' s' Hj.
  destruct (decide (j < length calls)%nat) as [Hlt|Hge].
  - rewrite lookup_app_l in Hj by done.
    destruct (Hcalls _ _ _ Hj) as (i & -> & Hi). exists i. split; [done|].
    rewrite lookup_app_l; [done|lia].
  - rewrite lookup_app_r in Hj by lia.
    destruct (j - length calls)%nat as [|[|n]] eqn:Hn; simpl in Hj; try done.
    injection Hj as <- <-. exists (length calls). split; [lia|].
    rewrite lookup_app_r by lia. by rewrite Nat.sub_diag.
Qed.

Lemma closeThenRelease_callbackThrows calls t s :
  closeThenRelease calls -> closeThenRelease (calls ++ callbackThrows t s).
Proof.
  intros Hcalls j t' s' Hj.
  destruct (decide (j < length calls)%nat) as [Hlt|Hge].
  - rewrite lookup_app_l in Hj by done.
    destruct (Hcalls _ _ _ Hj) as (i & -> & Hi). exists i. split; [done|].
    rewrite lookup_app_l; [done|lia].
  - rewrite lookup_app_r in Hj by lia.
    by destruct (j - length calls)%nat as [|n].
Qed.

Lemma step_closeThenRelease l l' :
  step l l' -> closeThenRelease (log l) -> closeThenRelease (log l').
Proof.
  intros [l0 t _|l0 tm before after _ _|l0 tm before after _ _] H; simpl.
  - done.
  - by apply closeThenRelease_callback.
  - by apply closeThenRelease_callbackThrows.
Qed.

(** C4 (as the code has it): the callback calls closeSession(session)
    first and releaseResources(session) second.  In every run of the
    event loop that starts with no call made, each releaseResources(s)
    comes right after closeSession(s), at the same time. *)
Theorem close_then_release l0 l :
  log l0 = [] -> steps l0 l -> closeThenRelease (log l).
Proof.
  intros Hnil Hsteps.
  assert (closeThenRelease (log l0)) as H0 by (rewrite Hnil; apply closeThenRelease_nil).
  clear Hnil. induction Hsteps as [|l1 l2 l3 Hstep _ IH]; [done|].
  apply IH. by eapply step_closeThenRelease.
Qed.

(* the session of the snippet is cleaned up at the very time it is due *)
Lemma script_fires t0 t1 t :
  t1 + 1800000 <= t ->
  steps (script t0 t1)
    {| now := t; timers := []; log := callback t (newSession t0) |}.
Proof.
  intros Ht. eapply rtc_l; [apply (tick _ t); simpl; lia|].
  eapply rtc_l; [|apply rtc_refl].
  apply (fire {| now := t; timers := timers (script t0 t1); log := [] |}
           {| due := t1 + 1800000; target := newSession t0 |} [] []).
  - reflexivity.
  - unfold isDue. simpl. by apply Z.leb_le.
Qed.

Lemma close_then_release_witness :
  closeThenRelease (callback 1800000 (newSession 0)).
Proof.
  apply (close_then_release (script 0 0)
           {| now := 1800000; timers := []; log := callback 1800000 (newSession 0) |}).
  - reflexivity.
  - apply script_fires. lia.
Defined.

(** C4 fails as stated: the session of the snippet is closed by the
    first call of the callback and its resources are released by the
    second, so the close comes before the release. *)
Lemma close_precedes_release :
  exists l,
    steps (script 0 0) l /\
    log l = [(1800000, closeSession (newSession 0));
             (1800000, releaseResources (newSession 0))] /\
    ~ releaseBeforeClose (log l).
Proof.
  eexists. split; [apply (script_fires 0 0 1800000); lia|]. split; [reflexivity|].
  intros H. destruct (H 0%nat 1800000 (newSession 0)) as (j & t & Hj & _); [done|lia].
Qed.

Lemma script_eq t0 t1 :
  script t0 t1
  = {| now := t1;
       timers := [{| due := t1 + 1800000; target := newSession t0 |}];
       log := [] |}.
Proof. reflexivity. Qed.

(* the states of the snippet: the timer is pending and nothing was
   called, or it fired once, when it was due *)
Lemma script_invariant t0 t1 l :
  steps (script t0 t1) l ->
  t1 <= now l /\
  ((timers l = [{| due := t1 + 1800000; target := newSession t0 |}] /\ log l = []) \/
   (timers l = [] /\
    exists t, t1 + 1800000 <= t <= now l /\
      (log l = callback t (newSession t0) \/ log l = callbackThrows t (newSession t0)))).
Proof.
  revert l. apply rtc_ind_r; [|intros l1 l2 Hsteps Hstep IH].
  - rewrite script_eq. simpl. split; [lia|]. by left.
  - destruct IH as [Hnow Hcases].
    destruct Hstep as [l1 t Ht|l1 tm before after Hsplit Hdue|l1 tm before after Hsplit Hdue];
      simpl.
    + split; [lia|]. destruct Hcases as [?|(? & t' & ? & ?)]; [by left|right].
      split; [done|]. exists t'. split; [lia|done].
    + destruct Hcases as [[Htimers Hlog]|[Htimers _]]; rewrite Htimers in Hsplit.
      * destruct before as [|? [|? ?]]; simplify_eq/=.
        split; [done|]. right. unfold isDue in Hdue. simpl in Hdue.
        apply Z.leb_le in Hdue. split; [done|]. exists (now l1).
        rewrite Hlog. split; [lia|by left].
      * by destruct before.
    + destruct Hcases as [[Htimers Hlog]|[Htimers _]]; rewrite Htimers in Hsplit.
      * destruct before as [|? [|? ?]]; simplify_eq/=.
        split; [done|]. right. unfold isDue in Hdue. simpl in Hdue.
        apply Z.leb_le in Hdue. split; [done|]. exists (now l1).
        rewrite Hlog. split; [lia|by right].
      * by destruct before.
Qed.

(** C7 (as the code has it): for the session created at t0, whose timer
    is set at t1 with the delay maxDuration = 1 800 000 ms, nothing has
    been called while the clock is below t0 + 1 800 000 (so not at
    t0 + 1799 s); every call is made at or after t0 + maxDuration; the
    calls made are those of one callback, which closes the session and
    releases its resources at one and the same time; the timer is due
    exactly when now - t1 >= maxDuration; and the clean-up can run at any
    time from t1 + maxDuration on.  There is no Expiring state and no
    idle timeout. *)
Theorem cleanup_at_maxDuration t0 t1 :
  t0 <= t1 ->
  (forall l, steps (script t0 t1) l ->
     (now l < t0 + 1800000 -> log l = []) /\
     (forall t c, (t, c) ∈ log l -> t0 + maxDuration (newSession t0) <= t) /\
     (log l = [] \/
      exists t, log l = callback t (newSession t0) \/
                log l = callbackThrows t (newSession t0)) /\
     (forall tm, tm ∈ timers l ->
        isDue l tm = (maxDuration (target tm) <=? now l - t1))) /\
  (forall t, t1 + 1800000 <= t ->
     steps (script t0 t1)
       {| now := t; timers := []; log := callback t (newSession t0) |}).
Proof.
  intros Ht. split; [|apply script_fires].
  intros l Hsteps. apply script_invariant in Hsteps as [Hnow Hcases].
  change (maxDuration (newSession t0)) with 1800000.
  destruct Hcases as [[Htimers Hlog]|(Htimers & t & Hwhen & Hlog)].
  - rewrite Hlog, Htimers. repeat split.
    + intros t c Hin. by apply elem_of_nil in Hin.
    + by left.
    + intros tm ->%list_elem_of_singleton. unfold isDue. simpl.
      apply eq_iff_eq_true. rewrite !Z.leb_le. lia.
  - rewrite Htimers. repeat split.
    + intros Hearly. lia.
    + intros t' c Hin. destruct Hlog as [Hlog|Hlog]; rewrite Hlog in Hin;
        unfold callback, callbackThrows in Hin;
        repeat (apply elem_of_cons in Hin as [[= -> ->]|Hin]; [lia|]);
        by apply elem_of_nil in Hin.
    + right. by exists t.
    + intros tm Hin. by apply elem_of_nil in Hin.
Qed.

Lemma cleanup_at_maxDuration_witness :
  let l := {| now := 1800000; timers := []; log := callback 1800000 (newSession 0) |} in
  (now l < 0 + 1800000 -> log l = []) /\
  (forall t c, (t, c) ∈ log l -> 0 + maxDuration (newSession 0) <= t) /\
  (log l = [] \/
   exists t, log l = callback t (newSession 0) \/
             log l = callbackThrows t (newSession 0)) /\
  (forall tm, tm ∈ timers l ->
     isDue l tm = (maxDuration (target tm) <=? now l - 0)).
Proof.
  destruct (cleanup_at_maxDuration 0 0) as [Hsafe Hlive]; [lia|].
  apply Hsafe, Hlive. lia.
Defined.

(** C7 fails as stated: ten minutes after its creation a session that
    was idle all along meets the trigger of the specification for an
    idle timeout of ten minutes, yet its timer is not due and nothing has
    been called; and when the timer fires, closeSession and
    releaseResources are called at that same time, with no state in
    between. *)
Lemma no_idle_timeout_no_Expiring :
  (exists l,
     steps (script 0 0) l /\ now l = 600000 /\
     specTrigger (now l) 0 0 1800000 600000 = true /\
     (forall tm, tm ∈ timers l -> isDue l tm = false) /\
     log l = []) /\
  (exists l,
     steps (script 0 0) l /\ now l = 1800000 /\
     log l = [(1800000, closeSession (newSession 0));
              (1800000, releaseResources (newSession 0))]).
Proof.
  split.
  - exists {| now := 600000; timers := timers (script 0 0); log := [] |}.
    split; [|split; [done|split; [done|split; [|done]]]].
    + eapply rtc_l; [apply (tick _ 600000); simpl; lia | apply rtc_refl].
    + intros tm ->%list_elem_of_singleton. reflexivity.
  - eexists. split; [apply (script_fires 0 0 1800000); lia|]. done.
Qed.

End Timer.


(* ------------------------------------------------------------------ *)
(* The release of a slot                                               *)
(* ------------------------------------------------------------------ *)
Module Release.
Import CapacityRegistry.

Lemma loadAt_release serverId reg serverId' :
  loadAt (release serverId reg).1 serverId'
  = match reg !! serverId' with
    | Some srv => if decide (serverId = serverId')
                  then Z.max 0 (load srv - 1) else load srv
    | None => 0
    end.
Proof.
  unfold release, loadAt.
  destruct (reg !! serverId) as [srv|] eqn:Hsrv; simpl.
  - rewrite lookup_insert. case_decide; subst; simpl.
    + by rewrite Hsrv.
    + by destruct (reg !! serverId').
  - case_decide; subst; [by rewrite Hsrv|]. by destruct (reg !! serverId').
Qed.

(* the release itself takes one slot off, down to 0 *)
Lemma release_decrements serverId reg :
  loadAt (release serverId reg).1 serverId
  = if decide (is_Some (reg !! serverId))
    then Z.max 0 (loadAt reg serverId - 1) else 0.
Proof.
  rewrite loadAt_release. unfold loadAt.
  destruct (reg !! serverId) as [srv|]; simpl.
  - repeat case_decide; try done; exfalso; eauto.
  - done.
Qed.

(** C5: releasing the slot of a terminated session twice is releasing it
    once.  The second call finds the terminal flag set and changes
    neither the session nor the registry; over both calls every load
    went down by one at most. *)
Theorem releaseSlot_idempotent s reg :
  let r1 := releaseSlot s reg in
  let r2 := releaseSlot r1.1 r1.2 in
  r2 = r1 /\
  terminalFlag r1.1 = true /\
  forall serverId,
    loadAt r2.2 serverId = loadAt r1.2 serverId /\
    loadAt reg serverId - 1 <= loadAt r2.2 serverId.
Proof.
  unfold releaseSlot. destruct (terminalFlag s) eqn:Hflag; simpl.
  - rewrite Hflag. simpl. split; [done|]. split; [done|].
    intros serverId. split; [done|lia].
  - split; [done|]. split; [done|]. intros serverId. split; [done|].
    rewrite loadAt_release. unfold loadAt.
    destruct (reg !! serverId) as [srv|]; simpl; [|lia]. case_decide; lia.
Qed.

(* a slot not yet released is released by the first call *)
Lemma releaseSlot_releases s reg :
  terminalFlag s = false ->
  (releaseSlot s reg).2 = (release (assignedServer s) reg).1.
Proof. intros Hflag. unfold releaseSlot. by rewrite Hflag. Qed.

End Release.

(* ------------------------------------------------------------------ *)
(* Calls one after the other                                           *)
(* ------------------------------------------------------------------ *)
Module Calls.
Import SessionManager.

(* the search does not depend on how createNewServer would end *)
Lemma findAvailableServer_any_provisioning prov1 prov2 st :
  exec prov1 findAvailableServer st = exec prov2 findAvailableServer st.
Proof.
  rewrite !Selection.findAvailableServer_unfold.
  destruct (Redis.smembers serversKey st) as [servers|e]; [|done].
  induction servers as [|serverId rest IH]; simpl; [done|].
  destruct (Redis.get (loadKey serverId) st) as [v|e]; [|done].
  by destruct (lessThan (parseInt v) 4).
Qed.

Lemma spare_not_full st serverId : spare st serverId = true -> full st serverId = true -> False.
Proof.
  unfold spare, full. destruct (Redis.get (loadKey serverId) st) as [v|e]; [|done].
  by destruct (lessThan (parseInt v) 4).
Qed.

(* Redis errors are the only errors of the search *)
Lemma scanServers_error prov servers st e st' :
  exec prov (scanServers servers) st = (Err e, st') -> e = Redis.WRONGTYPE.
Proof.
  induction servers as [|serverId rest IH]; simpl; [done|].
  unfold Redis.get.
  destruct (Redis.value <$> st !! loadKey serverId) as [[?| |]|];
    try (by intros [= <- _]); by destruct (lessThan (parseInt _) 4).
Qed.

Lemma findAvailableServer_error prov st e st' :
  exec prov findAvailableServer st = (Err e, st') -> e = Redis.WRONGTYPE.
Proof.
  rewrite Selection.findAvailableServer_unfold. unfold Redis.smembers.
  destruct (Redis.value <$> st !! serversKey) as [[?|servers|]|];
    try (by intros [= <- _]); apply scanServers_error.
Qed.

(** X1: assignSession returns a session exactly when the server set lists,
    after servers whose counters read 4 or more or no number, a server
    whose counter reads below 4.  The session then names that server and
    the user, carries the two clock readings and maxDuration 1 800 000,
    and the key space is the old one with the session's record under
    session:{userId}. *)
Theorem assignSession_succeeds_iff prov now1 now2 u st s st' :
  exec prov (assignSession now1 now2 u) st = (Ok s, st')
  <-> (exists before after,
         Redis.smembers serversKey st = Ok (before ++ serverId s :: after)%list /\
         Forall (fun other => full st other = true) before /\
         spare st (serverId s) = true) /\
      s = {| userId := u;
             serverId := serverId s;
             subdomain := "session-" +:+ NumberToString now1 +:+ ".ps.domain.com";
             startTime := now2;
             maxDuration := 1800000 |} /\
      st' = <[sessionKey u := record s]> st.
Proof.
  rewrite Placement.assignSession_unfold. split.
  - destruct (exec prov findAvailableServer st) as [[[srv|]|e] st1] eqn:Hfind.
    + pose proof (Exec.findAvailableServer_reads prov st) as Hst.
      rewrite Hfind in Hst. simpl in Hst. subst st1.
      rewrite Selection.findAvailableServer_unfold in Hfind.
      destruct (Redis.smembers serversKey st) as [servers|e]; [|done].
      apply Selection.scanServers_some in Hfind
        as (_ & before & after & -> & Hfull & Hspare & _).
      intros [= <- <-]. simpl. split; [|done]. by exists before, after.
    + by destruct prov.
    + done.
  - intros ((before & after & Hset & Hfull & Hspare) & Hs & ->).
    assert (exec prov findAvailableServer st
            = (Ok (Some {| id := serverId s; load := loadOf st (serverId s) |}), st))
      as Hfind.
    { rewrite Selection.findAvailableServer_unfold, Hset.
      apply Selection.scanServers_some. split; [done|]. by exists before, after. }
    rewrite Hfind. cbn [id]. change (30 * 60 * 1000) with 1800000.
    by rewrite <- Hs.
Qed.

(** X2: a call of assignSession that fails leaves the key space as it
    was, and it fails in one of three ways only: with the WRONGTYPE reply
    of Redis, with the error of this.createNewServer() after a search
    that found no server, or with the TypeError of the assignment to the
    constant after such a search. *)
Theorem assignSession_failure prov now1 now2 u st e st' :
  exec prov (assignSession now1 now2 u) st = (Err e, st') ->
  st' = st /\
  (((exec prov findAvailableServer st).1 = Err e /\ e = Redis.WRONGTYPE) \/
   ((exec prov findAvailableServer st).1 = Ok None /\
    (prov = Err e \/
     ((exists srv, prov = Ok srv) /\
      e = TypeError "Assignment to constant variable.")))).
Proof.
  rewrite Placement.assignSession_unfold.
  pose proof (Exec.findAvailableServer_reads prov st) as Hst.
  destruct (exec prov findAvailableServer st) as [[[srv|]|e'] st1] eqn:Hfind;
    simpl in *; subst st1.
  - done.
  - destruct prov as [srv|e']; intros [= <- <-]; (split; [done|]); right;
      (split; [done|]); [right|left]; eauto.
  - intros [= <- <-]. split; [done|]. left. split; [done|].
    by apply findAvailableServer_error in Hfind.
Qed.

Lemma assignSession_failure_witness :
  Scenario.saturated = Scenario.saturated /\
  (((exec Scenario.unavailable findAvailableServer Scenario.saturated).1
    = Err (Rejection "ProvisioningUnavailable") /\
    Rejection "ProvisioningUnavailable" = Redis.WRONGTYPE) \/
   ((exec Scenario.unavailable findAvailableServer Scenario.saturated).1 = Ok None /\
    (Scenario.unavailable = Err (Rejection "ProvisioningUnavailable") \/
     ((exists srv, Scenario.unavailable = Ok srv) /\
      Rejection "ProvisioningUnavailable"
      = TypeError "Assignment to constant variable.")))).
Proof.
  apply (assignSession_failure Scenario.unavailable 1000 1000 "u1").
  vm_compute. reflexivity.
Defined.

(** X3: a call of assignSession for a user changes no key but
    session:{userId} of that user; the record of every other user is left
    as it was. *)
Theorem assignSession_footprint prov now1 now2 u st key :
  key <> sessionKey u ->
  (exec prov (assignSession now1 now2 u) st).2 !! key = st !! key.
Proof.
  intros Hkey.
  apply (Exec.exec_frame (fun k => k = sessionKey u));
    [apply Exec.writesOnly_assignSession | done].
Qed.

Lemma assignSession_footprint_witness :
  (exec Scenario.notAFunction (assignSession 2000 2001 "u2")
     (<[sessionKey "u1" := record Scenario.firstSession]> Scenario.unequal)).2
    !! sessionKey "u1"
  = (<[sessionKey "u1" := record Scenario.firstSession]> Scenario.unequal)
      !! sessionKey "u1".
Proof.
  apply (assignSession_footprint Scenario.notAFunction 2000 2001 "u2").
  vm_compute. discriminate.
Defined.

(** X4: after a call that placed a session, the next call, for whatever
    user, is placed too, and on the same server: nothing the first call
    wrote is read by the search. *)
Theorem next_call_same_server prov1 prov2 now1 now2 now3 now4 u1 u2 st s1 st1 :
  exec prov1 (assignSession now1 now2 u1) st = (Ok s1, st1) ->
  exists s2,
    exec prov2 (assignSession now3 now4 u2) st1
    = (Ok s2, <[sessionKey u2 := record s2]> st1) /\
    serverId s2 = serverId s1.
Proof.
  intros H1.
  apply Placement.assignSession_ok in H1 as (srv & Hfind & _ & Hsrv & _ & _ & ->).
  set (st1 := <[sessionKey u1 := record s1]> st).
  assert (exec prov2 findAvailableServer st1 = (Ok (Some srv), st1)) as Hfind1.
  { pose proof (Exec.findAvailableServer_reads prov2 st1) as Hst.
    pose proof (Placement.findAvailableServer_ext prov2 st1 st) as Hext.
    rewrite (findAvailableServer_any_provisioning prov2 prov1 st), Hfind in Hext.
    destruct (exec prov2 findAvailableServer st1) as [r st1']. simpl in *.
    subst st1'. f_equal. apply Hext.
    - unfold st1. rewrite lookup_insert_ne; [done|]. apply Keys.sessionKey_not_serversKey.
    - intros serverId. unfold st1. rewrite lookup_insert_ne; [done|].
      apply Keys.sessionKey_not_loadKey. }
  rewrite Placement.assignSession_unfold, Hfind1. cbv zeta.
  eexists. split; [reflexivity|]. by rewrite Hsrv.
Qed.

Lemma next_call_same_server_witness :
  exists s2,
    exec Scenario.notAFunction (assignSession 2000 2001 "u2")
      (<[sessionKey "u1" := record Scenario.firstSession]> Scenario.unequal)
    = (Ok s2, <[sessionKey "u2" := record s2]>
                (<[sessionKey "u1" := record Scenario.firstSession]> Scenario.unequal)) /\
    serverId s2 = serverId Scenario.firstSession.
Proof.
  apply (next_call_same_server Scenario.notAFunction Scenario.notAFunction
           1000 1000 2000 2001 "u1" "u2" Scenario.unequal).
  vm_compute. reflexivity.
Defined.

End Calls.

(* ------------------------------------------------------------------ *)
(* What every call does, however the calls interleave                  *)
(* ------------------------------------------------------------------ *)
Module Interleaving.
Import SessionManager Invariant.

Lemma firstSpare_unique st serverId1 serverId2 :
  firstSpare st serverId1 -> firstSpare st serverId2 -> serverId1 = serverId2.
Proof.
  intros (before1 & after1 & Hset1 & Hfull1 & Hspare1)
         (before2 & after2 & Hset2 & Hfull2 & Hspare2).
  rewrite Hset1 in Hset2. injection Hset2 as Hsplit. clear Hset1.
  revert before2 Hfull2 Hsplit.
  induction Hfull1 as [|b1 before1 Hb1 _ IH]; intros before2 Hfull2 Hsplit.
  - destruct Hfull2 as [|b2 before2 Hb2 _]; simpl in Hsplit.
    + by injection Hsplit.
    + injection Hsplit as -> _. by destruct (Calls.spare_not_full st b2).
  - destruct Hfull2 as [|b2 before2 Hb2 Hfull2]; simpl in Hsplit.
    + injection Hsplit as -> _. by destruct (Calls.spare_not_full st serverId2).
    + injection Hsplit as _ Hsplit. by apply (IH before2).
Qed.

Lemma safe_bind {A B : Type} st0 (Q1 : A -> Prop) (Q2 : B -> Prop)
      (p : prog A) (f : A -> prog B) :
  safe st0 Q1 p -> (forall a, Q1 a -> safe st0 Q2 (f a)) -> safe st0 Q2 (bind p f).
Proof.
  intros Hp Hf. induction Hp; simpl; try (constructor; auto). by apply Hf.
Qed.

(* the loop, the servers in before having been read as full *)
Lemma safe_scanServers st0 before rest :
  Redis.smembers serversKey st0 = Ok (before ++ rest)%list ->
  Forall (fun other => full st0 other = true) before ->
  safe st0 (fun found => forall srv, found = Some srv -> firstSpare st0 (id srv))
    (scanServers rest).
Proof.
  revert before. induction rest as [|serverId rest IH]; intros before Hset Hfull; simpl.
  - by constructor.
  - constructor; [apply Keys.loadKey_not_session|]. intros v Hget.
    destruct (Selection.spare_or_full _ _ _ Hget) as (Hspare & Hfull' & _).
    destruct (lessThan (parseInt v) 4); simpl in *.
    + constructor. intros srv [= <-]. simpl. by exists before, rest.
    + apply (IH (before ++ [serverId])%list).
      * by rewrite <- app_assoc.
      * apply Forall_app. split; [done|]. by constructor.
Qed.

Lemma safe_assignSession st0 now1 now2 u :
  safe st0 (placedOn st0) (assignSession now1 now2 u).
Proof.
  unfold assignSession.
  apply (safe_bind st0 (fun found => forall srv, found = Some srv -> firstSpare st0 (id srv))).
  - constructor; [apply Keys.serversKey_not_session|].
    intros members Hset. by apply (safe_scanServers st0 []).
  - intros [srv|] Hfound.
    + specialize (Hfound srv eq_refl).
      assert (placedOn st0 {| userId := u; serverId := id srv;
                subdomain := "session-" +:+ NumberToString now1 +:+ ".ps.domain.com";
                startTime := now2; maxDuration := 30 * 60 * 1000 |}) as Hplaced by done.
      constructor; [|by constructor]. eexists. by repeat split.
    + constructor. intros _. constructor.
Qed.

Lemma storeOk_read st0 st key :
  storeOk st0 st -> ~ isSessionKey key -> st !! key = st0 !! key.
Proof.
  intros Hok Hkey. destruct (Hok key) as [?|(s & -> & _)]; [done|].
  destruct Hkey. by eexists.
Qed.

Lemma step_safe {A : Type} st0 (Q : A -> Prop) (p p' : prog A) st st' :
  step p st p' st' -> storeOk st0 st -> safe st0 Q p ->
  safe st0 Q p' /\ storeOk st0 st'.
Proof.
  intros Hstep Hok Hp.
  destruct Hstep as
    [key k st members Hcmd|key k st e Hcmd|key k st v Hcmd|key k st e Hcmd
    |key seconds v k st st' Hcmd|key seconds v k st st' e Hcmd|k st srv|k st e];
    inversion Hp as [| |? ? Hkey Hk|? ? Hkey Hk|? ? ? ? Hw Hk|? Hk]; subst;
    try (split; [constructor|done]).
  - split; [|done]. apply Hk. unfold Redis.smembers in *.
    by rewrite <- (storeOk_read st0 st key).
  - split; [|done]. apply Hk. unfold Redis.get in *.
    by rewrite <- (storeOk_read st0 st key).
  - split; [done|]. destruct Hw as (s & -> & -> & -> & Hplaced).
    injection Hcmd as <-. intros key.
    destruct (decide (key = sessionKey (userId s))) as [->|Hne].
    + right. exists s. by rewrite lookup_insert_eq.
    + rewrite lookup_insert_ne by done. apply Hok.
  - split; [constructor|]. destruct Hw as (s & -> & -> & -> & Hplaced). done.
  - split; [|done]. apply Hk.
Qed.

Lemma run_safe st0 calls st calls' st' :
  run (calls, st) (calls', st') ->
  Forall (safe st0 (placedOn st0)) calls -> storeOk st0 st ->
  Forall (safe st0 (placedOn st0)) calls' /\ storeOk st0 st'.
Proof.
  intros Hrun Hall Hok. inversion Hrun as [now1 now2 u ? ?|i p p' ? ? ? Hi Hstep]; subst.
  - split; [|done]. apply Forall_app. split; [done|]. constructor; [|done].
    apply safe_assignSession.
  - assert (safe st0 (placedOn st0) p) as Hp by (eapply Forall_lookup_1; eauto).
    destruct (step_safe _ _ _ _ _ _ Hstep Hok Hp) as [Hp' Hok'].
    split; [|done]. by apply Forall_insert.
Qed.

Lemma runs_safe st0 x y :
  runs x y ->
  Forall (safe st0 (placedOn st0)) x.1 -> storeOk st0 x.2 ->
  Forall (safe st0 (placedOn st0)) y.1 /\ storeOk st0 y.2.
Proof.
  induction 1 as [[calls st]|[calls st] [calls1 st1] [calls2 st2] Hrun _ IH]; simpl in *.
  - done.
  - intros Hall Hok. destruct (run_safe _ _ _ _ _ Hrun Hall Hok) as [Hall1 Hok1].
    by apply IH.
Qed.

(** X5: however many assignSession calls run and however their awaits
    interleave, every call that returns a session has placed it on the
    first server of the set whose counter read below 4 before the first
    call; so all the sessions returned name one and the same server. *)
Theorem concurrent_calls_same_server st0 calls st :
  runs ([], st0) (calls, st) ->
  (forall (i : nat) s, calls !! i = Some (Return s) -> placedOn st0 s) /\
  (forall (i j : nat) s1 s2,
     calls !! i = Some (Return s1) -> calls !! j = Some (Return s2) ->
     serverId s1 = serverId s2).
Proof.
  intros Hruns. apply (runs_safe st0) in Hruns as [Hall _];
    [|by constructor|by left]. simpl in Hall.
  assert (forall (i : nat) s, calls !! i = Some (Return s) -> placedOn st0 s) as Hplaced.
  { intros i s Hi. pose proof (Forall_lookup_1 _ _ _ _ Hall Hi) as Hs.
    by inversion Hs. }
  split; [done|]. intros i j s1 s2 Hi Hj.
  destruct (Hplaced _ _ Hi) as [H1 _], (Hplaced _ _ Hj) as [H2 _].
  by apply (firstSpare_unique st0).
Qed.

Lemma concurrent_calls_same_server_witness :
  let calls := [Return (Scenario.slotSession "u1")] in
  (forall (i : nat) s, calls !! i = Some (Return s) -> placedOn Scenario.lastSlot s) /\
  (forall (i j : nat) s1 s2,
     calls !! i = Some (Return s1) -> calls !! j = Some (Return s2) ->
     serverId s1 = serverId s2).
Proof.
  apply (concurrent_calls_same_server Scenario.lastSlot
           [Return (Scenario.slotSession "u1")]
           (<[sessionKey "u1" := record (Scenario.slotSession "u1")]> Scenario.lastSlot)).
  apply (Concurrency.call_completes Scenario.notAFunction 1000 1000 "u1" []).
  vm_compute. reflexivity.
Defined.

(** X6: however the calls interleave, the key session:{userId} of a user
    holds what it held before the first call, or the record, with its
    expire time of 1800 s, of a session of that very user placed on the
    first server whose counter read below 4: records are never mixed up
    between users. *)
Theorem stored_records_belong_to_their_user st0 calls st :
  runs ([], st0) (calls, st) ->
  forall u,
    st !! sessionKey u = st0 !! sessionKey u \/
    exists s, userId s = u /\ st !! sessionKey u = Some (record s) /\ placedOn st0 s.
Proof.
  intros Hruns u. apply (runs_safe st0) in Hruns as [_ Hok];
    [|by constructor|by left]. simpl in Hok.
  destruct (Hok (sessionKey u)) as [?|(s & Hkey & Hrec & Hplaced)]; [by left|].
  right. exists s. apply Keys.sessionKey_inj in Hkey. done.
Qed.

Lemma stored_records_belong_to_their_user_witness :
  let st0 := Scenario.lastSlot in
  let st := <[sessionKey "u1" := record (Scenario.slotSession "u1")]> st0 in
  st !! sessionKey "u1" = st0 !! sessionKey "u1" \/
  exists s, userId s = "u1" /\ st !! sessionKey "u1" = Some (record s) /\ placedOn st0 s.
Proof.
  apply (stored_records_belong_to_their_user Scenario.lastSlot
           [Return (Scenario.slotSession "u1")]).
  apply (Concurrency.call_completes Scenario.notAFunction 1000 1000 "u1" []).
  vm_compute. reflexivity.
Defined.

End Interleaving.

(* ------------------------------------------------------------------ *)
(* Reading a counter that holds a decimal integer                      *)
(* ------------------------------------------------------------------ *)
Module Counters.
Import SessionManager Digits.

Lemma digitsPrefix_cons R c s acc :
  digitsPrefix R (String c s) acc
  = match radixDigit R c with
    | Some d => digitsPrefix R s (Some (default 0 acc * R + d))
    | None => acc
    end.
Proof. reflexivity. Qed.

Ltac read_digit :=
  rewrite digitsPrefix_cons;
  match goal with
  | |- context [radixDigit 10 ?c] =>
      let v := eval vm_compute in (radixDigit 10 c) in
      change (radixDigit 10 c) with v
  end; cbv beta iota; cbn [default from_option]; unfold Datatypes.id.

Lemma digits_acc d acc :
  digitsPrefix 10 (NilEmpty.string_of_uint d) (Some (Zpos acc))
  = Some (Zpos (Pos.of_uint_acc d acc)).
Proof.
  revert acc.
  induction d; intros acc; cbn [NilEmpty.string_of_uint Pos.of_uint_acc];
    [reflexivity|..]; read_digit; rewrite <- IHd; do 2 f_equal; lia.
Qed.

Lemma digits_zero d :
  digitsPrefix 10 (NilEmpty.string_of_uint d) (Some 0) = Some (Z.of_N (Pos.of_uint d)).
Proof.
  induction d; cbn [NilEmpty.string_of_uint Pos.of_uint]; [reflexivity|..]; read_digit;
    rewrite ?Z.mul_0_l, ?Z.add_0_l; [exact IHd|..]; apply digits_acc.
Qed.

Lemma string_of_uint_plain d : d <> Nil -> plainDigits (NilEmpty.string_of_uint d) = true.
Proof.
  destruct d as [|d|d|d|d|d|d|d|d|d|d]; [done|..]; intros _; destruct d; reflexivity.
Qed.

Lemma sign_plus (o : option Z) :
  match o with Some m => Some (1 * m) | None => None end = o.
Proof. by destruct o as [[| |]|]. Qed.

Lemma sign_minus (o : option Z) :
  match o with Some m => Some (-1 * m) | None => None end = Z.opp <$> o.
Proof. by destruct o as [[| |]|]. Qed.

Lemma parseIntString_plain s :
  plainDigits s = true -> parseIntString s = digitsPrefix 10 s (Some 0).
Proof.
  intros Hs. destruct s as [|c rest]; [done|].
  destruct c as [[|] [|] [|] [|] [|] [|] [|] [|]];
    try (vm_compute in Hs; discriminate Hs).
  all: try (cbv -[digitsPrefix Z.mul]; rewrite sign_plus; reflexivity).
  destruct rest as [|c' rest']; [reflexivity|].
  destruct c' as [[|] [|] [|] [|] [|] [|] [|] [|]];
    try (vm_compute in Hs; discriminate Hs);
    cbv -[digitsPrefix Z.mul]; rewrite sign_plus; reflexivity.
Qed.

Lemma parseIntString_minus s :
  plainDigits s = true ->
  parseIntString (String "-" s) = Z.opp <$> digitsPrefix 10 s (Some 0).
Proof.
  intros Hs. destruct s as [|c rest]; [done|].
  destruct c as [[|] [|] [|] [|] [|] [|] [|] [|]];
    try (vm_compute in Hs; discriminate Hs).
  all: try (cbv -[digitsPrefix Z.mul fmap option_fmap option_map Z.opp];
            rewrite sign_minus; reflexivity).
  destruct rest as [|c' rest']; [reflexivity|].
  destruct c' as [[|] [|] [|] [|] [|] [|] [|] [|]];
    try (vm_compute in Hs; discriminate Hs);
    cbv -[digitsPrefix Z.mul fmap option_fmap option_map Z.opp];
    rewrite sign_minus; reflexivity.
Qed.

(* parseInt reads back the decimal form of an integer *)
Lemma parseInt_NumberToString n : parseInt (Some (NumberToString n)) = Some n.
Proof.
  unfold parseInt, ToString, NumberToString. destruct n as [|p|p]; [reflexivity|..];
    cbn [Z.to_int NilZero.string_of_int]; unfold NilZero.string_of_uint;
    pose proof (Unsigned.to_uint_nonnil p) as Hnil;
    destruct (Pos.to_uint p) eqn:Hp; try done; rewrite <- Hp.
  all: first
    [ rewrite parseIntString_plain, digits_zero, Unsigned.of_to;
      [done | apply string_of_uint_plain; congruence]
    | rewrite parseIntString_minus, digits_zero, Unsigned.of_to;
      [done | apply string_of_uint_plain; congruence] ].
Qed.

(** X7: a counter that holds an integer n in decimal, as Redis writes the
    integers it counts, is compared as a number: the server counts as
    spare exactly when n < 4, negative n included, and as full exactly
    when n >= 4. *)
Theorem decimal_counter st serverId n ttl :
  st !! loadKey serverId
  = Some {| Redis.value := Redis.RString (NumberToString n); Redis.ttl := ttl |} ->
  spare st serverId = (n <? 4) /\ full st serverId = (4 <=? n).
Proof.
  intros Hkey. unfold spare, full, Redis.get. rewrite Hkey. simpl.
  rewrite parseInt_NumberToString. simpl. split; [done|].
  destruct (Z.ltb_spec n 4), (Z.leb_spec 4 n); simpl; try done; lia.
Qed.

Lemma decimal_counter_witness :
  spare Scenario.lastSlot "A" = (3 <? 4) /\ full Scenario.lastSlot "A" = (4 <=? 3).
Proof.
  apply (decimal_counter Scenario.lastSlot "A" 3 None). vm_compute. reflexivity.
Defined.

End Counters.

(* ------------------------------------------------------------------ *)
(* The event loop with any number of timers                            *)
(* ------------------------------------------------------------------ *)
Module Timers.
Import Cleanup CleanupLog.

Lemma closeCount_app calls more :
  closeCount (calls ++ more) = (closeCount calls + closeCount more)%nat.
Proof. unfold closeCount. by rewrite List.filter_app, length_app. Qed.

Lemma releaseCount_app calls more :
  releaseCount (calls ++ more) = (releaseCount calls + releaseCount more)%nat.
Proof. unfold releaseCount. by rewrite List.filter_app, length_app. Qed.

(** X8: in every run of the event loop each timer runs its callback once
    at most: the number of pending timers plus the number of
    closeSession calls made stays what it was, and releaseResources is
    never called more often than closeSession. *)
Theorem each_timer_fires_once l0 l :
  steps l0 l ->
  (length (timers l) + closeCount (log l) = length (timers l0) + closeCount (log l0))%nat /\
  (releaseCount (log l) + closeCount (log l0)
   <= closeCount (log l) + releaseCount (log l0))%nat.
Proof.
  induction 1 as [l|l1 l2 l3 Hstep _ IH]; [lia|].
  destruct Hstep as [l1 t Ht|l1 tm before after Hsplit Hdue|l1 tm before after Hsplit Hdue];
    simpl in IH.
  - done.
  - rewrite closeCount_app, releaseCount_app, length_app in IH.
    rewrite Hsplit, length_app. simpl in *.
    change (closeCount (callback (now l1) (target tm))) with 1%nat in IH.
    change (releaseCount (callback (now l1) (target tm))) with 1%nat in IH. lia.
  - rewrite closeCount_app, releaseCount_app, length_app in IH.
    rewrite Hsplit, length_app. simpl in *.
    change (closeCount (callbackThrows (now l1) (target tm))) with 1%nat in IH.
    change (releaseCount (callbackThrows (now l1) (target tm))) with 0%nat in IH. lia.
Qed.

Lemma each_timer_fires_once_witness :
  let l := {| now := 1800000; timers := [];
              log := callback 1800000 (newSession 0) |} in
  (length (timers l) + closeCount (log l)
   = length (timers (script 0 0)) + closeCount (log (script 0 0)))%nat /\
  (releaseCount (log l) + closeCount (log (script 0 0))
   <= closeCount (log l) + releaseCount (log (script 0 0)))%nat.
Proof.
  apply (each_timer_fires_once (script 0 0)). apply Timer.script_fires. lia.
Defined.

(** X9: in every run of the event loop the clock never goes back, no
    timer is added, and every call made is the call of a timer that was
    pending at the start, for the session of that timer, at a time when
    the timer was due and within the span of the run. *)
Theorem calls_come_from_due_timers l0 l :
  steps l0 l ->
  now l0 <= now l /\
  (forall tm, tm ∈ timers l -> tm ∈ timers l0) /\
  exists made,
    log l = (log l0 ++ made)%list /\
    forall t c, (t, c) ∈ made ->
      now l0 <= t <= now l /\
      exists tm, tm ∈ timers l0 /\ target tm = sessionOf c /\ due tm <= t.
Proof.
  unfold steps. revert l. apply rtc_ind_r.
  - split; [lia|]. split; [done|]. exists []. split; [by rewrite app_nil_r|].
    intros t c Hin. by apply elem_of_nil in Hin.
  - intros l1 l2 _ Hstep (Hnow & Htimers & made & Hlog & Hmade).
    destruct Hstep as [l1 t Ht|l1 tm before after Hsplit Hdue|l1 tm before after Hsplit Hdue];
      simpl.
    + split; [lia|]. split; [done|]. exists made. split; [done|].
      intros t' c Hin. destruct (Hmade _ _ Hin) as [Hspan Htm]. split; [lia|done].
    + assert (tm ∈ timers l0) as Htm.
      { apply Htimers. rewrite Hsplit. apply elem_of_app. right.
        apply elem_of_cons. by left. }
      apply Z.leb_le in Hdue.
      split; [done|]. split.
      { intros tm' Hin. apply Htimers. rewrite Hsplit.
        apply elem_of_app in Hin as [Hin|Hin]; apply elem_of_app; [by left|right].
        apply elem_of_cons. by right. }
      exists (made ++ callback (now l1) (target tm))%list.
      split; [by rewrite Hlog, app_assoc|].
      intros t c [Hin|Hin]%elem_of_app; [by apply Hmade|].
      unfold callback in Hin.
      repeat (apply elem_of_cons in Hin as [[= -> ->]|Hin];
              [split; [lia|]; by exists tm|]).
      by apply elem_of_nil in Hin.
    + assert (tm ∈ timers l0) as Htm.
      { apply Htimers. rewrite Hsplit. apply elem_of_app. right.
        apply elem_of_cons. by left. }
      apply Z.leb_le in Hdue.
      split; [done|]. split.
      { intros tm' Hin. apply Htimers. rewrite Hsplit.
        apply elem_of_app in Hin as [Hin|Hin]; apply elem_of_app; [by left|right].
        apply elem_of_cons. by right. }
      exists (made ++ callbackThrows (now l1) (target tm))%list.
      split; [by rewrite Hlog, app_assoc|].
      intros t c [Hin|Hin]%elem_of_app; [by apply Hmade|].
      unfold callbackThrows in Hin.
      repeat (apply elem_of_cons in Hin as [[= -> ->]|Hin];
              [split; [lia|]; by exists tm|]).
      by apply elem_of_nil in Hin.
Qed.

Lemma calls_come_from_due_timers_witness :
  let l0 := script 0 0 in
  let l := {| now := 1800000; timers := [];
              log := callback 1800000 (newSession 0) |} in
  now l0 <= now l /\
  (forall tm, tm ∈ timers l -> tm ∈ timers l0) /\
  exists made,
    log l = (log l0 ++ made)%list /\
    forall t c, (t, c) ∈ made ->
      now l0 <= t <= now l /\
      exists tm, tm ∈ timers l0 /\ target tm = sessionOf c /\ due tm <= t.
Proof.
  apply (calls_come_from_due_timers (script 0 0)). apply Timer.script_fires. lia.
Defined.

End Timers.

(* ------------------------------------------------------------------ *)
(* The health check of the deploy job                                  *)
(* ------------------------------------------------------------------ *)
Module HealthCheck.
Import BlueGreen.









End HealthCheck.

(* ------------------------------------------------------------------ *)
(* recommend                                                           *)
(* ------------------------------------------------------------------ *)
Module Recommend.
Import Recommendation.

Lemma lines_complete matches :
  Forall complete matches -> exists products, lines matches = Returned products.
Proof.
  induction 1 as [|r rest [[name Hname] [description Hdescription]] _ [products IH]]; simpl.
  - by eexists.
  - unfold line, item. rewrite Hname, Hdescription. simpl. rewrite IH. simpl. by eexists.
Qed.

Lemma lines_KeyError before r after key :
  Forall complete before ->
  line r = Raises (KeyError key) ->
  lines (before ++ r :: after) = Raises (KeyError key).
Proof.
  intros Hbefore Hr. induction Hbefore as [|b before Hb _ IH]; simpl.
  - by rewrite Hr.
  - destruct (lines_complete [b]) as [products Hproducts]; [by constructor|].
    simpl in Hproducts. destruct (line b) as [l|e]; [|done]. simpl. by rewrite IH.
Qed.

(** X12: recommend asks the index for twenty matches and reads ten: its
    outcome is the same when the answer of the index is cut after the
    tenth match, whatever the matches after it hold. *)
Theorem recommend_reads_ten_matches {vector : Type} (self : services vector)
    query budget style :
  recommend (cutAfterTen self) query budget style = recommend self query budget style.
Proof.
  unfold recommend. simpl.
  destruct (embeddings_create self "text-embedding-3-small" query) as [data|e]; [|done].
  simpl. destruct (first data) as [embedding|e]; [|done]. simpl.
  destruct (index_query self embedding _) as [matches|e]; [|done]. simpl.
  by rewrite take_take.
Qed.

(** X13: when one of the first ten matches has no name or no
    description, all matches before it having both, recommend raises
    KeyError for the missing key (for name when both are missing),
    whatever the chat model would answer: the chat model is not asked. *)
Theorem recommend_KeyError {vector : Type} (self : services vector)
    query budget style embedding data before r after key :
  embeddings_create self "text-embedding-3-small" query = Returned (embedding :: data) ->
  index_query self embedding
    {| top_k := 20; price_lte := budget; style_eq := style; include_metadata := true |}
  = Returned (before ++ r :: after)%list ->
  (length before < 10)%nat ->
  Forall complete before ->
  line r = Raises (KeyError key) ->
  recommend self query budget style = Raises (KeyError key) /\
  (key = "name" <-> metadata r !! "name" = None).
Proof.
  intros Hembed Hquery Hlen Hbefore Hline. split.
  - unfold recommend. rewrite Hembed. simpl. rewrite Hquery. simpl.
    rewrite take_app_ge by lia.
    destruct (10 - length before)%nat as [|n] eqn:Hn; [lia|]. simpl.
    by rewrite (lines_KeyError before r (take n after) key).
  - unfold line, item in Hline.
    destruct (metadata r !! "name") as [name|]; simpl in Hline.
    + destruct (metadata r !! "description"); simpl in Hline; [done|].
      injection Hline as <-. split; [done|discriminate].
    + by injection Hline as <-.
Qed.

Lemma recommend_KeyError_witness :
  recommend (echo [sofa; nameless; sofa]) "sofa" 1000 "modern" = Raises (KeyError "name") /\
  ("name" = "name" <-> metadata nameless !! "name" = None).
Proof.
  apply (recommend_KeyError (echo [sofa; nameless; sofa]) "sofa" 1000 "modern"
           tt [] [sofa] nameless [sofa] "name").
  - reflexivity.
  - reflexivity.
  - simpl. lia.
  - constructor; [|constructor]. split; vm_compute; eauto.
  - vm_compute. reflexivity.
Defined.

End Recommend.

(* ------------------------------------------------------------------ *)
(* Errors on their way to the client                                   *)
(* ------------------------------------------------------------------ *)
Module Errors.
Import ErrorHandling.

(** X14: the response to an error that is not operational is the same
    for every such error, status 500 and "Internal server error": nothing
    of the error reaches the client.  The response to an operational
    error depends on its stack in the development environment only. *)
Theorem errorHandler_reveals NODE_ENV req :
  (forall err1 err2,
     operational err1 = false -> operational err2 = false ->
     (errorHandler NODE_ENV err1 req).2 = (errorHandler NODE_ENV err2 req).2 /\
     status (errorHandler NODE_ENV err1 req).2 = 500) /\
  (forall e1 e2,
     NODE_ENV <> Some "development" ->
     message e1 = message e2 -> statusCode e1 = statusCode e2 ->
     isOperational e1 = isOperational e2 ->
     (errorHandler NODE_ENV (App e1) req).2 = (errorHandler NODE_ENV (App e2) req).2).
Proof.
  split.
  - intros [e1| |] [e2| |] H1 H2; simpl in *; rewrite ?H1, ?H2; done.
  - intros e1 e2 Henv Hmessage Hstatus Hop. simpl. rewrite Hop, Hmessage, Hstatus.
    destruct (isOperational e2); [|done]. by rewrite !decide_False.
Qed.

Lemma firstOfTarget_cases t :
  firstOfTarget t
  = match t with
    | Some (FieldNames (n :: _)) => if decide (n = "") then "field" else n
    | Some (IndexName (String c _)) => String c EmptyString
    | _ => "field"
    end.
Proof.
  unfold firstOfTarget. destruct t as [[[|n ?]|[|c ?]]|]; try done.
Qed.

(** X15: what handlePrismaError throws for a known request error, and
    what errorHandler then logs and sends, depend on the code and on
    meta.target of the error only: the message and the stack of the
    Prisma error are neither sent nor logged.  The status is 409 for
    P2002, 404 for P2025, 400 for P2003 and P2014, and 500 for every other
    code. *)
Theorem prisma_error_answer NODE_ENV req trace e :
  (forall e',
     code e' = code e -> metaTarget e' = metaTarget e ->
     errorHandler NODE_ENV (handlePrismaError trace (KnownRequest e')) req
     = errorHandler NODE_ENV (handlePrismaError trace (KnownRequest e)) req) /\
  status (errorHandler NODE_ENV (handlePrismaError trace (KnownRequest e)) req).2
  = (if decide (code e = "P2002") then 409
     else if decide (code e = "P2025") then 404
     else if decide (code e = "P2003") then 400
     else if decide (code e = "P2014") then 400
     else 500).
Proof.
  split.
  - intros e' Hcode Htarget. simpl. by rewrite Hcode, Htarget.
  - simpl. repeat case_decide; done.
Qed.

(** X16: for a unique constraint violation (P2002) handlePrismaError
    throws a ConflictError with status 409 whose message names the first
    field of meta.target when that is a list of names, only the first
    character of meta.target when that is a string (the name of the
    index), and the word field when there is nothing to name. *)
Theorem unique_violation_message trace e :
  code e = "P2002" ->
  exists conflict,
    handlePrismaError trace (KnownRequest e) = App conflict /\
    name conflict = "ConflictError" /\ statusCode conflict = 409 /\
    isOperational conflict = true /\
    message conflict
    = match metaTarget e with
      | Some (FieldNames (n :: _)) => if decide (n = "") then "field" else n
      | Some (IndexName (String c _)) => String c EmptyString
      | _ => "field"
      end +:+ " already exists".
Proof.
  intros Hcode. simpl. rewrite decide_True by done. eexists. split; [done|].
  simpl. by rewrite firstOfTarget_cases.
Qed.

Lemma unique_violation_message_witness :
  exists conflict,
    handlePrismaError "at createUser"
      (KnownRequest {| code := "P2002"; metaTarget := Some (IndexName "users_email_key");
                       prismaMessage := "Unique constraint failed";
                       prismaStack := "at PrismaClient" |})
    = App conflict /\
    name conflict = "ConflictError" /\ statusCode conflict = 409 /\
    isOperational conflict = true /\
    message conflict = "u" +:+ " already exists".
Proof.
  apply (unique_violation_message "at createUser"
           {| code := "P2002"; metaTarget := Some (IndexName "users_email_key");
              prismaMessage := "Unique constraint failed";
              prismaStack := "at PrismaClient" |}).
  reflexivity.
Defined.




(** X18: when schema.validate reports an error, validate throws a
    ValidationError that errorHandler answers with status 400 and the
    message "Validation failed", for whatever details: the messages
    collected for the fields are not part of the response.  When it
    reports none, next is called with the validated value as the body. *)
Theorem validation_fields_not_sent {B : Type}
    (schemaValidate : B -> option (list detail) * B) trace reqBody NODE_ENV req :
  match schemaValidate reqBody with
  | (Some details, _) =>
      exists err,
        validate schemaValidate trace reqBody = Throws (App err) /\
        fields err = Some (collect details) /\
        (errorHandler NODE_ENV (App err) req).2
        = {| status := 400;
             body := [("success", JBool false); ("message", JString "Validation failed")]
                     ++ (if decide (NODE_ENV = Some "development")
                         then [("stack", JString trace)] else []) |}
  | (None, value) => validate schemaValidate trace reqBody = Next value
  end.
Proof.
  unfold validate. destruct (schemaValidate reqBody) as [[details|] value]; [|done].
  eexists. split; [done|]. split; done.
Qed.

End Errors.

(* ------------------------------------------------------------------ *)
(* What is written can be read in one way only                         *)
(* ------------------------------------------------------------------ *)
Module Encoding.
Import SessionManager Digits.

Lemma append_cons c s t : String c s +:+ t = String c (s +:+ t).
Proof. reflexivity. Qed.

Lemma append_nil s : EmptyString +:+ s = s.
Proof. reflexivity. Qed.

Lemma append_assoc (s t u : string) : (s +:+ t) +:+ u = s +:+ (t +:+ u).
Proof. induction s as [|c s IH]; [done|]. by rewrite !append_cons, IH. Qed.

Lemma quoteJSONChar_plain c : escaped c = false -> quoteJSONChar c = String c EmptyString.
Proof.
  unfold escaped, quoteJSONChar. intros H.
  apply orb_false_elim in H as [H H92]. apply orb_false_elim in H as [H32 H34].
  rewrite H34, H92, H32.
  apply Z.ltb_ge in H32.
  by rewrite !(proj2 (Z.eqb_neq _ _)) by lia.
Qed.

Lemma quoteJSONChar_escaped c :
  escaped c = true -> exists rest, quoteJSONChar c = String backslash rest.
Proof.
  unfold quoteJSONChar, escaped. intros H.
  destruct (code c =? 34) eqn:H34; [by eexists|].
  destruct (code c =? 92) eqn:H92; [by eexists|].
  destruct (code c <? 32) eqn:H32; [|done].
  repeat match goal with |- context [if ?b then _ else _] => destruct b; [by eexists|] end.
  by eexists.
Qed.

Ltac encode_in H :=
  repeat match type of H with
  | context [quoteJSONChar ?c] =>
      let v := eval vm_compute in (quoteJSONChar c) in
      change (quoteJSONChar c) with v in H
  end.

Lemma escaped_inj c d X Y :
  escaped c = true -> escaped d = true ->
  quoteJSONChar c +:+ X = quoteJSONChar d +:+ Y -> c = d /\ X = Y.
Proof.
  intros Hc Hd H.
  destruct c as [[|] [|] [|] [|] [|] [|] [|] [|]]; try discriminate Hc;
    destruct d as [[|] [|] [|] [|] [|] [|] [|] [|]]; try discriminate Hd;
    encode_in H; rewrite ?append_cons, ?append_nil in H;
    try discriminate H; by simplify_eq.
Qed.

Lemma escaped_backslash c : c = backslash -> escaped c = true.
Proof. by intros ->. Qed.

Lemma escaped_dquote c : c = dquote -> escaped c = true.
Proof. by intros ->. Qed.

Lemma quoteJSONChar_inj c d X Y :
  quoteJSONChar c +:+ X = quoteJSONChar d +:+ Y -> c = d /\ X = Y.
Proof.
  destruct (escaped c) eqn:Hc, (escaped d) eqn:Hd.
  - by apply escaped_inj.
  - destruct (quoteJSONChar_escaped c Hc) as [rest ->].
    rewrite (quoteJSONChar_plain d Hd), !append_cons. intros [= <- _].
    by rewrite escaped_backslash in Hd.
  - destruct (quoteJSONChar_escaped d Hd) as [rest ->].
    rewrite (quoteJSONChar_plain c Hc), !append_cons. intros [= -> _].
    by rewrite escaped_backslash in Hc.
  - rewrite (quoteJSONChar_plain c Hc), (quoteJSONChar_plain d Hd), !append_cons, !append_nil.
    by intros [= -> ->].
Qed.

Lemma quoteJSONChar_not_quote c X r : quoteJSONChar c +:+ X <> String dquote r.
Proof.
  destruct (escaped c) eqn:Hc.
  - destruct (quoteJSONChar_escaped c Hc) as [rest ->]. by rewrite append_cons.
  - rewrite (quoteJSONChar_plain c Hc), append_cons. intros [= -> _].
    by rewrite escaped_dquote in Hc.
Qed.

Lemma quoteJSONChars_inj a b r1 r2 :
  quoteJSONChars a +:+ String dquote r1 = quoteJSONChars b +:+ String dquote r2 ->
  a = b /\ r1 = r2.
Proof.
  revert b. induction a as [|c a IH]; intros [|d b]; simpl.
  - rewrite !append_nil. by intros [= ->].
  - rewrite append_nil, append_assoc. intros H. symmetry in H.
    by apply quoteJSONChar_not_quote in H.
  - rewrite append_nil, append_assoc. intros H. by apply quoteJSONChar_not_quote in H.
  - rewrite !append_assoc. intros [-> H]%quoteJSONChar_inj.
    by apply IH in H as [-> ->].
Qed.

(* a string literal of JSON, followed by anything, can be read in one way *)
Lemma quoteJSONString_inj a b r1 r2 :
  quoteJSONString a +:+ r1 = quoteJSONString b +:+ r2 -> a = b /\ r1 = r2.
Proof.
  unfold quoteJSONString. rewrite !append_cons, !append_assoc, !append_cons, !append_nil.
  intros [= H]. by apply quoteJSONChars_inj.
Qed.

Lemma numeric_uint d : numeric (NilEmpty.string_of_uint d) = true.
Proof. induction d; simpl; [done|..]; exact IHd. Qed.

Lemma numeric_NumberToString n : numeric (NumberToString n) = true.
Proof.
  unfold NumberToString. destruct n as [|p|p]; [done|..]; simpl;
    unfold NilZero.string_of_uint; destruct (Pos.to_uint p) eqn:Hp; try done;
    rewrite <- Hp; apply numeric_uint.
Qed.

(* a numeral ends where the first other character stands *)
Lemma numeric_delimited s1 s2 c1 c2 r1 r2 :
  numeric s1 = true -> numeric s2 = true ->
  numericChar c1 = false -> numericChar c2 = false ->
  s1 +:+ String c1 r1 = s2 +:+ String c2 r2 -> s1 = s2 /\ r1 = r2.
Proof.
  revert s2. induction s1 as [|a s1 IH]; intros [|b s2] H1 H2 Hc1 Hc2; simpl in *;
    rewrite ?append_cons, ?append_nil.
  - by intros [= _ ->].
  - intros [= -> _]. apply andb_true_iff in H2 as [H2 _]. congruence.
  - intros [= -> _]. apply andb_true_iff in H1 as [H1 _]. congruence.
  - intros [= -> H]. apply andb_true_iff in H1 as [_ H1]. apply andb_true_iff in H2 as [_ H2].
    by destruct (IH s2 H1 H2 Hc1 Hc2 H) as [-> ->].
Qed.

Lemma NumberToString_inj a b : NumberToString a = NumberToString b -> a = b.
Proof.
  intros H. pose proof (Counters.parseInt_NumberToString a) as Ha.
  rewrite H, Counters.parseInt_NumberToString in Ha. by injection Ha.
Qed.

Lemma NumberToString_delimited a b c1 c2 r1 r2 :
  numericChar c1 = false -> numericChar c2 = false ->
  NumberToString a +:+ String c1 r1 = NumberToString b +:+ String c2 r2 ->
  a = b /\ r1 = r2.
Proof.
  intros Hc1 Hc2 H.
  apply numeric_delimited in H as [H ->]; try done; try apply numeric_NumberToString.
  by apply NumberToString_inj in H.
Qed.

Lemma String_tail c s t : String c s = String c t -> s = t.
Proof. by intros [= ->]. Qed.

Lemma JSON_stringify_inj s1 s2 : JSON_stringify s1 = JSON_stringify s2 -> s1 = s2.
Proof.
  destruct s1 as [u1 v1 d1 t1 m1], s2 as [u2 v2 d2 t2 m2].
  unfold JSON_stringify, member.
  cbn [userId serverId subdomain startTime maxDuration].
  rewrite !append_assoc, !append_cons, !append_nil.
  intros H. apply String_tail in H.
  apply quoteJSONString_inj in H as [_ H]. apply String_tail in H.
  apply quoteJSONString_inj in H as [-> H]. apply String_tail in H.
  apply quoteJSONString_inj in H as [_ H]. apply String_tail in H.
  apply quoteJSONString_inj in H as [-> H]. apply String_tail in H.
  apply quoteJSONString_inj in H as [_ H]. apply String_tail in H.
  apply quoteJSONString_inj in H as [-> H]. apply String_tail in H.
  apply quoteJSONString_inj in H as [_ H]. apply String_tail in H.
  apply NumberToString_delimited in H as [-> H]; [|done..].
  apply quoteJSONString_inj in H as [_ H]. apply String_tail in H.
  apply NumberToString_delimited in H as [-> _]; [|done..].
  done.
Qed.

Lemma subdomain_inj a b :
  "session-" +:+ NumberToString a +:+ ".ps.domain.com"
  = "session-" +:+ NumberToString b +:+ ".ps.domain.com" -> a = b.
Proof.
  intros H. apply (inj (String.app _)) in H.
  by apply NumberToString_delimited in H as [-> _].
Qed.

(** X19: the value stored for a session determines the session: two
    sessions with the same JSON text, and so with the same record, are
    the same session, whatever characters their strings hold. *)
Theorem record_determines_session s1 s2 :
  (JSON_stringify s1 = JSON_stringify s2 <-> s1 = s2) /\
  (record s1 = record s2 <-> s1 = s2).
Proof.
  split; split.
  - apply JSON_stringify_inj.
  - intros H. by rewrite H.
  - intros H. apply JSON_stringify_inj.
    change (JSON_stringify s1)
      with (match Redis.value (record s1) with Redis.RString v => v | _ => "" end).
    by rewrite H.
  - intros H. by rewrite H.
Qed.

Lemma subdomain_of prov now1 now2 u st s st' :
  exec prov (assignSession now1 now2 u) st = (Ok s, st') ->
  subdomain s = "session-" +:+ NumberToString now1 +:+ ".ps.domain.com".
Proof.
  rewrite Placement.assignSession_unfold.
  destruct (exec prov findAvailableServer st) as [[[srv|]|e] st1].
  - by intros [= <- _].
  - destruct prov; discriminate.
  - discriminate.
Qed.

(** X20: two sessions returned by assignSession have the same subdomain
    exactly when the first clock readings of the two calls are equal,
    whoever the users are: the subdomain tells calls of different
    milliseconds apart, and only those. *)
Theorem subdomain_by_clock prov1 prov2 now1 now2 now3 now4 u1 u2 st1 st2 s1 s2 st1' st2' :
  exec prov1 (assignSession now1 now2 u1) st1 = (Ok s1, st1') ->
  exec prov2 (assignSession now3 now4 u2) st2 = (Ok s2, st2') ->
  (subdomain s1 = subdomain s2 <-> now1 = now3).
Proof.
  intros H1%subdomain_of H2%subdomain_of. rewrite H1, H2.
  split; [apply subdomain_inj | by intros ->].
Qed.

Lemma subdomain_by_clock_witness :
  subdomain Scenario.firstSession = subdomain (Scenario.slotSession "u2") <-> 1000 = 1000.
Proof.
  apply (subdomain_by_clock Scenario.notAFunction Scenario.notAFunction
           1000 1000 1000 1000 "u1" "u2" Scenario.unequal Scenario.lastSlot
           Scenario.firstSession (Scenario.slotSession "u2")
           (<[sessionKey "u1" := record Scenario.firstSession]> Scenario.unequal)
           (<[sessionKey "u2" := record (Scenario.slotSession "u2")]> Scenario.lastSlot)).
  - vm_compute. reflexivity.
  - vm_compute. reflexivity.
Defined.

End Encoding.

(* ------------------------------------------------------------------ *)
(* POST /api/users from the request to the response                    *)
(* ------------------------------------------------------------------ *)
Module Users.
Import ErrorHandling.

(** X21: POST /api/users answers in one of these ways.  With a body that
    fails validation: 400 "Validation failed", the database not being
    asked.  With a valid body whose e-mail is found: 409 "Email already
    registered".  With a valid body whose e-mail is not found but whose
    insert fails on the unique constraint (P2002): 409 as well, with the
    message of handlePrismaError.  With a valid body that is inserted:
    201, success true, the time stamp, the message "User created" and
    the user as data. *)
Theorem postUsers_answers {B : Type} (schemaValidate : B -> option (list detail) * B)
    (prisma : database B) at' NODE_ENV timestamp reqBody req :
  let answer := postUsers schemaValidate prisma at' NODE_ENV timestamp reqBody req in
  match schemaValidate reqBody with
  | (Some details, _) =>
      answer
      = {| status := 400;
           body := [("success", JBool false); ("message", JString "Validation failed")]
                   ++ stackIfDevelopment NODE_ENV (atValidate at') |}
  | (None, validBody) =>
      match findUnique prisma validBody with
      | Resolved (Some existing) =>
          answer
          = {| status := 409;
               body := [("success", JBool false);
                        ("message", JString "Email already registered")]
                       ++ stackIfDevelopment NODE_ENV (atConflict at') |}
      | Resolved None =>
          match create prisma validBody with
          | Resolved user =>
              answer
              = {| status := 201;
                   body := [("success", JBool true); ("timestamp", JString timestamp);
                            ("message", JString "User created");
                            ("data", JOther user)] |}
          | Rejected (KnownRequest e) =>
              code e = "P2002" ->
              answer
              = {| status := 409;
                   body := [("success", JBool false);
                            ("message",
                             JString (firstOfTarget (metaTarget e) +:+ " already exists"))]
                           ++ stackIfDevelopment NODE_ENV (atPrisma at') |}
          | Rejected e =>
              answer = (errorHandler NODE_ENV e req).2
          end
      | Rejected e => answer = (errorHandler NODE_ENV e req).2
      end
  end.
Proof.
  unfold postUsers, validate, createUser. cbv zeta.
  destruct (schemaValidate reqBody) as [[details|] validBody]; [done|].
  destruct (findUnique prisma validBody) as [[existing|]|e]; [done| |done].
  destruct (create prisma validBody) as [user|[e|e|m t]]; [done|done| |done].
  intros Hcode. simpl. by rewrite decide_True.
Qed.

End Users.

(* ------------------------------------------------------------------ *)
(* The probe against the endpoint                                      *)
(* ------------------------------------------------------------------ *)
Module Probe.
Import ErrorHandling Health.


End Probe.
